(** * sbvm: a shallow embedding of the stack-based virtual machine of sbvm.c

    The C program is modelled function by function.  Integers are [Z] with
    the conversions of the C types written out, the byte code is a buffer of
    [Byte.byte], the two output streams are strings, and [exit] is an
    outcome of its own, so that a fatal fault of the operand stack can be
    told from a run that stops on its own. *)

From Stdlib Require Import ZArith Lia Bool String Ascii DecimalString.
From Stdlib.Strings Require Import Byte.
From stdpp Require Import base tactics option list.

Local Open Scope Z_scope.

(** ** Machine integers *)

Module Int.

Definition INT32_MIN : Z := -2147483648.
Definition INT32_MAX : Z := 2147483647.
Definition SIZE_MAX : Z := 18446744073709551615.

(** A value of type [int32_t]. *)
Definition in_int32 (z : Z) : Prop := INT32_MIN <= z <= INT32_MAX.

(** Conversion to [uint32_t]: reduction modulo [2^32]. *)
Definition to_uint32 (z : Z) : Z := z mod 4294967296.

(** Conversion to [int32_t], two's complement. *)
Definition to_int32 (z : Z) : Z := (z + 2147483648) mod 4294967296 - 2147483648.

(** Conversion to [size_t] (64 bits). *)
Definition to_size (z : Z) : Z := z mod 18446744073709551616.

(** [uint8_t] to [int32_t]: the byte is zero-extended. *)
Definition of_byte (b : byte) : Z := Z.of_N (Byte.to_N b).

End Int.

(** ** Text written by [printf] *)

Definition LF : string := String (ascii_of_nat 10) EmptyString.

(** The conversion [%d]. *)
Definition fmt_d (z : Z) : string := NilZero.string_of_int (Z.to_int z).

(** ** Outcomes of a C function

    A function of the program works on an object of type [S] (the structure
    its pointer argument points to) and on the environment of the process:
    the two streams and the allocator.  It returns
    ([Ret]), or the process ends in [exit] ([Exit], with the object and the
    streams as they are at that point), or the program does not determine
    what happens next ([Undefined]): a read or a write outside an array,
    a read of a byte that no write has given a value, the one division
    whose quotient is not an [int32_t].  [OutOfFuel] belongs to the bounded
    unrolling of the run loop only; [vm_run] never ends in it. *)

(** The environment: what has been written to the two streams, and the
    allocator, given by the requests it grants ([allocates n]: a call of
    [malloc] or [realloc] for [n] bytes returns a block, not a null
    pointer).  The program cannot change the allocator. *)
Record Stdio : Type :=
  { stdout : string; stderr : string; allocates : Z -> bool }.

Definition printf (msg : string) (io : Stdio) : Stdio :=
  {| stdout := String.append (stdout io) msg; stderr := stderr io;
     allocates := allocates io |}.

Definition fprintf_stderr (msg : string) (io : Stdio) : Stdio :=
  {| stdout := stdout io; stderr := String.append (stderr io) msg;
     allocates := allocates io |}.

Inductive outcome (S A : Type) : Type :=
| Ret (a : A) (s : S) (io : Stdio)
| Exit (status : Z) (s : S) (io : Stdio)
| Undefined
| OutOfFuel.

Arguments Ret {S A} a s io.
Arguments Exit {S A} status s io.
Arguments Undefined {S A}.
Arguments OutOfFuel {S A}.

Definition M (S A : Type) : Type := S -> Stdio -> outcome S A.

Definition ret {S A} (a : A) : M S A := fun s io => Ret a s io.

Definition bind {S A B} (m : M S A) (k : A -> M S B) : M S B :=
  fun s io =>
    match m s io with
    | Ret a s' io' => k a s' io'
    | Exit n s' io' => Exit n s' io'
    | Undefined => Undefined
    | OutOfFuel => OutOfFuel
    end.

Declare Scope vm_scope.
Delimit Scope vm_scope with vm.
Notation "'let*' x ':=' m 'in' k" := (bind m (fun x => k))
  (at level 10, x name, m at level 200, k at level 200) : vm_scope.
Notation "m ;; k" := (bind m (fun _ => k))
  (at level 100, k at level 200, right associativity) : vm_scope.

(** ** Operand stack *)

Definition STACK_MAX_SIZE : Z := 1024.

Record Stack : Type := { data : list Z; top : Z }.

Definition stack_init : M Stack unit :=
  fun s io => Ret tt {| data := data s; top := -1 |} io.

Definition stack_isEmpty (s : Stack) : bool := top s =? -1.

Definition stack_isFull (s : Stack) : bool := STACK_MAX_SIZE - 1 <=? top s.

(** An index into [data] that is inside the array. *)
Definition in_data (i : Z) : bool := (0 <=? i) && (i <? STACK_MAX_SIZE).

Definition stack_push (val : Z) : M Stack unit :=
  fun s io =>
    if stack_isFull s then
      Exit 1 s (fprintf_stderr (String.append "Stack overflow " LF) io)
    else
      let t := top s + 1 in
      if in_data t then
        Ret tt {| data := <[Z.to_nat t := val]> (data s); top := t |} io
      else Undefined.

Definition stack_pop : M Stack Z :=
  fun s io =>
    if stack_isEmpty s then
      Exit 1 s (fprintf_stderr (String.append "Stack Underflow " LF) io)
    else
      if in_data (top s) then
        match data s !! Z.to_nat (top s) with
        | Some v => Ret v {| data := data s; top := top s - 1 |} io
        | None => Undefined
        end
      else Undefined.

Definition stack_peek : M Stack Z :=
  fun s io =>
    if top s <? 0 then
      Exit 1 s (fprintf_stderr (String.append "Empty Stack " LF) io)
    else
      if in_data (top s) then
        match data s !! Z.to_nat (top s) with
        | Some v => Ret v s io
        | None => Undefined
        end
      else Undefined.

(** ** Call stack *)

Record CallFrame : Type := { return_addr : Z; frame_pointer : Z }.

Definition CALL_STACK_MAX : Z := 256.

Record CallStack : Type := { frames : list CallFrame; count : Z }.

Definition in_frames (i : Z) : bool := (0 <=? i) && (i <? CALL_STACK_MAX).

Definition call_stack_init : M CallStack unit :=
  fun cs io => Ret tt {| frames := frames cs; count := 0 |} io.

Definition call_stack_push (ra : Z) (fp : Z) : M CallStack unit :=
  fun cs io =>
    if CALL_STACK_MAX <=? count cs then
      Exit 1 cs (fprintf_stderr (String.append "Call stack overflow" LF) io)
    else
      if in_frames (count cs) then
        Ret tt {| frames := <[Z.to_nat (count cs) :=
                               {| return_addr := ra; frame_pointer := fp |}]>
                            (frames cs);
                  count := count cs + 1 |} io
      else Undefined.

Definition call_stack_pop : M CallStack CallFrame :=
  fun cs io =>
    if count cs <=? 0 then
      Exit 1 cs (fprintf_stderr (String.append "Call stack underflow" LF) io)
    else
      let c := count cs - 1 in
      if in_frames c then
        match frames cs !! Z.to_nat c with
        | Some f => Ret f {| frames := frames cs; count := c |} io
        | None => Undefined
        end
      else Undefined.

(** ** Code segment

    The buffer is the block that [malloc] returned: one slot per allocated
    byte, [None] while no write has given the byte a value.  [malloc] and
    [realloc] return a null pointer when the allocator refuses the
    request; the program does not test for it, and a null pointer is the
    block with no slot: every access through it is outside the block.
    [length] and the indices into the buffer stay below the size of the
    block, so only [capacity * 2] can wrap around. *)

Module CodeSegment.
Record t : Type := { code : list (option byte); length : Z; capacity : Z }.
End CodeSegment.

Definition malloc (io : Stdio) (n : Z) : list (option byte) :=
  if allocates io n then replicate (Z.to_nat n) None else [].

Definition realloc (io : Stdio) (p : list (option byte)) (n : Z)
  : list (option byte) :=
  if allocates io n then
    take (Z.to_nat n) p ++ replicate (Z.to_nat n - List.length p) None
  else [].

(** An index that is inside the allocated block. *)
Definition in_block (p : list (option byte)) (i : Z) : bool :=
  (0 <=? i) && (i <? Z.of_nat (List.length p)).

Definition code_segment_init (initial_capacity : Z) : M CodeSegment.t unit :=
  fun _ io =>
    Ret tt {| CodeSegment.code := malloc io initial_capacity;
              CodeSegment.length := 0;
              CodeSegment.capacity := initial_capacity |} io.

Definition code_segment_write (b : byte) : M CodeSegment.t unit :=
  fun seg io =>
    let seg :=
      if CodeSegment.capacity seg <=? CodeSegment.length seg then
        let new_capacity := Int.to_size (CodeSegment.capacity seg * 2) in
        {| CodeSegment.code := realloc io (CodeSegment.code seg) new_capacity;
           CodeSegment.length := CodeSegment.length seg;
           CodeSegment.capacity := new_capacity |}
      else seg in
    if in_block (CodeSegment.code seg) (CodeSegment.length seg) then
      Ret tt {| CodeSegment.code :=
                  <[Z.to_nat (CodeSegment.length seg) := Some b]>
                    (CodeSegment.code seg);
                CodeSegment.length := CodeSegment.length seg + 1;
                CodeSegment.capacity := CodeSegment.capacity seg |} io
    else Undefined.

(** [seg->code[i]] *)
Definition code_at (seg : CodeSegment.t) (i : Z) : option byte :=
  if in_block (CodeSegment.code seg) i then
    mjoin (CodeSegment.code seg !! Z.to_nat i)
  else None.

(** ** Opcodes *)

Inductive OpCode : Type :=
| OP_NOP | OP_PUSH | OP_POP | OP_DUP | OP_SWAP
| OP_ADD | OP_SUB | OP_MUL | OP_DIV
| OP_JMP | OP_JZ | OP_JNZ
| OP_CALL | OP_RET
| OP_LOAD | OP_STORE
| OP_PRINT | OP_STOP.

(** The value of the enumeration constant, as the byte that
    [code_segment_write] receives. *)
Definition OpCode_byte (o : OpCode) : byte :=
  match o with
  | OP_NOP => x00 | OP_PUSH => x01 | OP_POP => x02 | OP_DUP => x03
  | OP_SWAP => x04 | OP_ADD => x05 | OP_SUB => x06 | OP_MUL => x07
  | OP_DIV => x08 | OP_JMP => x09 | OP_JZ => x0a | OP_JNZ => x0b
  | OP_CALL => x0c | OP_RET => x0d | OP_LOAD => x0e | OP_STORE => x0f
  | OP_PRINT => x10 | OP_STOP => x11
  end.

(** The enumeration constant a byte is equal to, if any. *)
Definition OpCode_of_byte (b : byte) : option OpCode :=
  match b with
  | x00 => Some OP_NOP | x01 => Some OP_PUSH | x02 => Some OP_POP
  | x03 => Some OP_DUP | x04 => Some OP_SWAP | x05 => Some OP_ADD
  | x06 => Some OP_SUB | x07 => Some OP_MUL | x08 => Some OP_DIV
  | x09 => Some OP_JMP | x0a => Some OP_JZ | x0b => Some OP_JNZ
  | x0c => Some OP_CALL | x0d => Some OP_RET | x0e => Some OP_LOAD
  | x0f => Some OP_STORE | x10 => Some OP_PRINT | x11 => Some OP_STOP
  | _ => None
  end.

(** ** The engine *)

Record VM : Type :=
  { code_segment : CodeSegment.t; stack : Stack; running : bool }.

Definition set_stack (vm : VM) (s : Stack) : VM :=
  {| code_segment := code_segment vm; stack := s; running := running vm |}.

Definition set_running (r : bool) : M VM unit :=
  fun vm io =>
    Ret tt {| code_segment := code_segment vm; stack := stack vm;
              running := r |} io.

(** A function called on [&vm->stack]. *)
Definition on_stack {A} (m : M Stack A) : M VM A :=
  fun vm io =>
    match m (stack vm) io with
    | Ret a s io' => Ret a (set_stack vm s) io'
    | Exit n s io' => Exit n (set_stack vm s) io'
    | Undefined => Undefined
    | OutOfFuel => OutOfFuel
    end.

Definition put_stdout (msg : string) : M VM unit :=
  fun vm io => Ret tt vm (printf msg io).

Definition put_stderr (msg : string) : M VM unit :=
  fun vm io => Ret tt vm (fprintf_stderr msg io).

Local Open Scope vm_scope.

Definition vm_init (code : CodeSegment.t) : M VM unit :=
  (fun vm io =>
     Ret tt {| code_segment := code; stack := stack vm;
               running := running vm |} io) ;;
  on_stack stack_init ;;
  set_running false.

Definition vm_push (val : Z) : M VM unit := on_stack (stack_push val).

(** [vm_pop] returns [uint32_t]. *)
Definition vm_pop : M VM Z :=
  let* v := on_stack stack_pop in ret (Int.to_uint32 v).

(** [vm->code_segment->code[ip]] *)
Definition fetch (ip : Z) : M VM byte :=
  fun vm io =>
    match code_at (code_segment vm) ip with
    | Some b => Ret b vm io
    | None => Undefined
    end.

(** [a / b] for [int32_t] operands and [b] not zero: the quotient
    truncated toward zero.  The quotient of [INT32_MIN] by [-1] is not an
    [int32_t]: C leaves that division undefined and the machine division
    does not compute it, so it has no result here. *)
Definition int32_div (a b : Z) : M VM Z :=
  fun vm io =>
    if (a =? Int.INT32_MIN) && (b =? -1) then Undefined
    else Ret (Z.quot a b) vm io.

(** One iteration of the loop of [vm_run]: the body of the [while], from
    the instruction pointer before the fetch to the one after the
    dispatch.  The values popped come back from [vm_pop] as [uint32_t] and
    are stored to [int32_t] locals; [a + b], [a - b] and [a * b] are taken
    with the wrap-around of 32-bit two's complement, which is what the
    machine computes when the result does not fit.  [printf] with [%d]
    prints the value popped as an [int]. *)
Definition vm_step (ip : Z) : M VM Z :=
  let* opcode := fetch ip in
  let ip := ip + 1 in
  match OpCode_of_byte opcode with
  | Some OP_NOP => ret ip
  | Some OP_PUSH =>
      let* imm := fetch ip in
      let ip := ip + 1 in
      let value := Int.to_int32 (Int.of_byte imm) in
      vm_push value ;; ret ip
  | Some OP_POP => vm_pop ;; ret ip
  | Some OP_DUP =>
      let* value := on_stack stack_peek in
      vm_push value ;; ret ip
  | Some OP_SWAP =>
      let* a := vm_pop in
      let a := Int.to_int32 a in
      let* b := vm_pop in
      let b := Int.to_int32 b in
      vm_push a ;; vm_push b ;; ret ip
  | Some OP_ADD =>
      let* b := vm_pop in
      let b := Int.to_int32 b in
      let* a := vm_pop in
      let a := Int.to_int32 a in
      vm_push (Int.to_int32 (a + b)) ;; ret ip
  | Some OP_SUB =>
      let* b := vm_pop in
      let b := Int.to_int32 b in
      let* a := vm_pop in
      let a := Int.to_int32 a in
      vm_push (Int.to_int32 (a - b)) ;; ret ip
  | Some OP_MUL =>
      let* b := vm_pop in
      let b := Int.to_int32 b in
      let* a := vm_pop in
      let a := Int.to_int32 a in
      vm_push (Int.to_int32 (a * b)) ;; ret ip
  | Some OP_DIV =>
      let* b := vm_pop in
      let b := Int.to_int32 b in
      let* a := vm_pop in
      let a := Int.to_int32 a in
      if b =? 0 then
        put_stderr (String.append "Error: Division by zero" LF) ;;
        set_running false ;;
        ret ip
      else
        let* q := int32_div a b in
        vm_push q ;; ret ip
  | Some OP_PRINT =>
      let* v := vm_pop in
      put_stdout (String.append (fmt_d (Int.to_int32 v)) LF) ;;
      ret ip
  | Some OP_STOP => set_running false ;; ret ip
  | _ =>
      put_stderr
        (String.append "Unknown opcode: "
           (String.append (fmt_d (Int.of_byte opcode)) LF)) ;;
      set_running false ;;
      ret ip
  end.

(** The [while] loop of [vm_run], unrolled at most [fuel] times; the value
    returned is the instruction pointer when the loop is left. *)
Fixpoint vm_loop (fuel : nat) (ip : Z) : M VM Z :=
  fun vm io =>
    if running vm && (ip <? CodeSegment.length (code_segment vm)) then
      match fuel with
      | O => OutOfFuel
      | S fuel' => (let* ip' := vm_step ip in vm_loop fuel' ip') vm io
      end
    else Ret ip vm io.

(** Every iteration advances the instruction pointer, hence the loop is
    left after at most [length] iterations (see [vm_loop_fuel]). *)
Definition vm_run : M VM unit :=
  fun vm io =>
    (set_running true ;;
     let* _ := vm_loop (Z.to_nat (CodeSegment.length (code_segment vm))) 0 in
     ret tt) vm io.

(** ** The program of [main]

    [main] has two locals, the code segment and the engine; [on_fst] and
    [on_snd] run a function on one of them.  [vm_init] stores the address
    of the segment in the engine; the segment is not written after that,
    so the engine's view of it is the segment itself.  The closing [free]
    changes nothing that is observed afterwards and is left out. *)

Definition on_fst {S T A} (m : M S A) : M (S * T) A :=
  fun st io =>
    match m (fst st) io with
    | Ret a s io' => Ret a (s, snd st) io'
    | Exit n s io' => Exit n (s, snd st) io'
    | Undefined => Undefined
    | OutOfFuel => OutOfFuel
    end.

Definition on_snd {S T A} (m : M T A) : M (S * T) A :=
  fun st io =>
    match m (snd st) io with
    | Ret a t io' => Ret a (fst st, t) io'
    | Exit n t io' => Exit n (fst st, t) io'
    | Undefined => Undefined
    | OutOfFuel => OutOfFuel
    end.

Definition main : M (CodeSegment.t * VM) Z :=
  on_fst (code_segment_init 256) ;;
  on_fst (code_segment_write (OpCode_byte OP_PUSH)) ;;
  on_fst (code_segment_write x05) ;;
  on_fst (code_segment_write (OpCode_byte OP_PUSH)) ;;
  on_fst (code_segment_write x04) ;;
  on_fst (code_segment_write (OpCode_byte OP_ADD)) ;;
  on_fst (code_segment_write (OpCode_byte OP_PRINT)) ;;
  on_fst (code_segment_write (OpCode_byte OP_STOP)) ;;
  (fun st io => on_snd (vm_init (fst st)) st io) ;;
  on_snd vm_run ;;
  (fun st io => Ret tt st (printf (String.append "Run finished" LF) io)) ;;
  ret 0.

(** * Specification-side definitions *)

(** ** The operand stack as a list

    [stack_holds s l]: the array has its [STACK_MAX_SIZE] cells and the
    cells [0 .. top] hold the values [l], the value at [top] first. *)

Definition stack_holds (s : Stack) (l : list Z) : Prop :=
  Z.of_nat (length (data s)) = STACK_MAX_SIZE /\
  top s = Z.of_nat (length l) - 1 /\
  Z.of_nat (length l) <= STACK_MAX_SIZE /\
  take (length l) (data s) = reverse l.

(** ** Sequences of operations on the operand stack *)

Inductive stack_op : Type :=
| OpPush (v : Z)
| OpPop.

(** The operations carried out one after the other by [stack_push] and
    [stack_pop]; the result is the list of the values popped, in the order
    in which they were popped. *)
Fixpoint stack_run (ops : list stack_op) : M Stack (list Z) :=
  match ops with
  | [] => ret []
  | OpPush v :: ops' => stack_push v ;; stack_run ops'
  | OpPop :: ops' =>
      let* v := stack_pop in
      let* vs := stack_run ops' in
      ret (v :: vs)
  end.

(** A sequence is valid from a stack of [n] values when it never pops an
    empty stack and never pushes a full one. *)
Fixpoint valid_ops (n : Z) (ops : list stack_op) : bool :=
  match ops with
  | [] => true
  | OpPush _ :: ops' => (n <? STACK_MAX_SIZE) && valid_ops (n + 1) ops'
  | OpPop :: ops' => (0 <? n) && valid_ops (n - 1) ops'
  end.

Fixpoint count_push (ops : list stack_op) : Z :=
  match ops with
  | [] => 0
  | OpPush _ :: ops' => 1 + count_push ops'
  | OpPop :: ops' => count_push ops'
  end.

Fixpoint count_pop (ops : list stack_op) : Z :=
  match ops with
  | [] => 0
  | OpPush _ :: ops' => count_pop ops'
  | OpPop :: ops' => 1 + count_pop ops'
  end.

(** The last-in first-out discipline on a list, the most recent value at
    the head: the values popped and the values left. *)
Fixpoint lifo (ops : list stack_op) (l : list Z) : list Z * list Z :=
  match ops with
  | [] => ([], l)
  | OpPush v :: ops' => lifo ops' (v :: l)
  | OpPop :: ops' =>
      match l with
      | [] => lifo ops' []
      | v :: l' => let (ps, r) := lifo ops' l' in (v :: ps, r)
      end
  end.

(** The logical size of the stack. *)
Definition stack_size (s : Stack) : Z := top s + 1.

(** The message of [stack_push] on a full stack. *)
Definition overflow_msg : string := String.append "Stack overflow " LF.

(** A stack whose array is filled with zeros, before [stack_init]. *)
Definition zero_stack : Stack :=
  {| data := replicate (Z.to_nat STACK_MAX_SIZE) 0; top := 0 |}.

(** Nothing written yet, and an allocator that grants every request. *)
Definition empty_io : Stdio :=
  {| stdout := ""; stderr := ""; allocates := fun _ => true |}.

(** ** States of the engine

    [vm_at vm seg r l]: the engine runs the segment [seg], its running flag
    is [r] and its operand stack holds [l]. *)
Definition vm_at (vm : VM) (seg : CodeSegment.t) (r : bool) (l : list Z) : Prop :=
  code_segment vm = seg /\ running vm = r /\ stack_holds (stack vm) l.

(** [holds_program seg bs]: the bytes written to the segment are [bs]. *)
Definition holds_program (seg : CodeSegment.t) (bs : list byte) : Prop :=
  CodeSegment.length seg = Z.of_nat (length bs) /\
  forall i b, bs !! i = Some b -> code_at seg (Z.of_nat i) = Some b.

(** The operation of an arithmetic opcode on the integers. *)
Definition arith_op (o : OpCode) : option (Z -> Z -> Z) :=
  match o with
  | OP_ADD => Some Z.add
  | OP_SUB => Some Z.sub
  | OP_MUL => Some Z.mul
  | _ => None
  end.

Definition div_zero_msg : string := String.append "Error: Division by zero" LF.

Definition unknown_opcode_msg (b : byte) : string :=
  String.append "Unknown opcode: " (String.append (fmt_d (Int.of_byte b)) LF).

(** ** Assembling and running a byte sequence

    The way of [main]: a segment of initial capacity 256, the bytes
    appended one by one, an engine initialised over it, and one run. *)

Fixpoint code_segment_writes (bs : list byte) : M CodeSegment.t unit :=
  match bs with
  | [] => ret tt
  | b :: bs' => code_segment_write b ;; code_segment_writes bs'
  end.

(** The locals of [main] before they are initialised (their contents are
    not read: every field is written before it is used, and the cells of
    the stack array are written before they are read). *)
Definition blank_segment : CodeSegment.t :=
  {| CodeSegment.code := []; CodeSegment.length := 0;
     CodeSegment.capacity := 0 |}.

Definition blank_vm : VM :=
  {| code_segment := blank_segment; stack := zero_stack; running := false |}.

Definition exec (bs : list byte) : outcome (CodeSegment.t * VM) unit :=
  (on_fst (code_segment_init 256) ;;
   on_fst (code_segment_writes bs) ;;
   (fun st io => on_snd (vm_init (fst st)) st io) ;;
   on_snd vm_run) (blank_segment, blank_vm) empty_io.

(** The engine once [vm_run] has set the running flag. *)
Definition started (vm : VM) : VM :=
  {| code_segment := code_segment vm; stack := stack vm; running := true |}.

(** The byte code [PUSH 5, PUSH 4, ADD, PRINT, STOP]. *)
Definition sample_program : list byte :=
  [OpCode_byte OP_PUSH; x05; OpCode_byte OP_PUSH; x04;
   OpCode_byte OP_ADD; OpCode_byte OP_PRINT; OpCode_byte OP_STOP].

(** The byte code [PUSH 10, PUSH 0, DIV, PRINT, STOP]. *)
Definition div_zero_program : list byte :=
  [OpCode_byte OP_PUSH; x0a; OpCode_byte OP_PUSH; x00;
   OpCode_byte OP_DIV; OpCode_byte OP_PRINT; OpCode_byte OP_STOP].

Definition assemble (bs : list byte) : CodeSegment.t :=
  match (code_segment_init 256 ;; code_segment_writes bs) blank_segment empty_io with
  | Ret _ seg _ => seg
  | _ => blank_segment
  end.

(** [segment_holds seg bs]: the buffer has [capacity] slots, [length] is
    the number of bytes appended and does not exceed [capacity], and the
    bytes appended so far, [bs], sit at their indices. *)
Definition segment_holds (seg : CodeSegment.t) (bs : list byte) : Prop :=
  Z.of_nat (length (CodeSegment.code seg)) = CodeSegment.capacity seg /\
  CodeSegment.length seg = Z.of_nat (length bs) /\
  CodeSegment.length seg <= CodeSegment.capacity seg /\
  forall i b, bs !! i = Some b -> CodeSegment.code seg !! i = Some (Some b).

(** The condition under which [code_segment_write] does not have to grow
    the buffer, or can: there is room, or [capacity * 2] is a [size_t] and
    the allocator grants that many bytes. *)
Definition can_append (io : Stdio) (seg : CodeSegment.t) : Prop :=
  CodeSegment.length seg < CodeSegment.capacity seg \/
  (CodeSegment.capacity seg * 2 <= Int.SIZE_MAX /\
   allocates io (CodeSegment.capacity seg * 2) = true).

(** ** Example states *)

(** A stack that holds [l], the other cells zero. *)
Definition example_stack (l : list Z) : Stack :=
  {| data := reverse l ++ replicate (Z.to_nat STACK_MAX_SIZE - length l) 0;
     top := Z.of_nat (length l) - 1 |}.

(** A running engine over the assembled bytes [bs], its stack holding [l]. *)
Definition example_vm (bs : list byte) (l : list Z) : VM :=
  {| code_segment := assemble bs; stack := example_stack l; running := true |}.

(** A call stack with no active frame. *)
Definition example_call_stack : CallStack :=
  {| frames := replicate (Z.to_nat CALL_STACK_MAX)
                 {| return_addr := 0; frame_pointer := 0 |};
     count := 0 |}.

(** Byte code that computes [-2147483648] and [-1] and divides:
    [PUSH 0, PUSH 128, SUB], three times [PUSH 16, PUSH 16, MUL, MUL],
    [PUSH 0, PUSH 1, SUB, DIV, PRINT, STOP]. *)
Definition div_overflow_program : list byte :=
  [OpCode_byte OP_PUSH; x00; OpCode_byte OP_PUSH; x80; OpCode_byte OP_SUB;
   OpCode_byte OP_PUSH; x10; OpCode_byte OP_PUSH; x10; OpCode_byte OP_MUL;
   OpCode_byte OP_MUL;
   OpCode_byte OP_PUSH; x10; OpCode_byte OP_PUSH; x10; OpCode_byte OP_MUL;
   OpCode_byte OP_MUL;
   OpCode_byte OP_PUSH; x10; OpCode_byte OP_PUSH; x10; OpCode_byte OP_MUL;
   OpCode_byte OP_MUL;
   OpCode_byte OP_PUSH; x00; OpCode_byte OP_PUSH; x01; OpCode_byte OP_SUB;
   OpCode_byte OP_DIV; OpCode_byte OP_PRINT; OpCode_byte OP_STOP].

(** ** Statements under test

    The behaviour that the description of the engine gives to DIV, to the
    conditional jumps, to CALL and to the end of a run, written down as it
    is worded, to be compared with [vm_step] and [vm_run]. *)

(** DIV on a stack with [b] above [a]: a zero divisor stops the run with
    the fault and pushes nothing; any other divisor gets the quotient
    pushed. *)
Definition claimed_div (vm : VM) (ip : Z) (io : Stdio) (a b : Z) (l : list Z)
  : Prop :=
  if b =? 0 then
    exists vm',
      vm_step ip vm io = Ret (ip + 1) vm' (fprintf_stderr div_zero_msg io) /\
      running vm' = false /\ stack_holds (stack vm') l
  else
    exists vm',
      vm_step ip vm io = Ret (ip + 1) vm' io /\
      stack_holds (stack vm') (Z.quot a b :: l).

(** JZ ([o = OP_JZ]) and JNZ ([o = OP_JNZ]) on a stack with [v] on top and
    the immediate [target]: the value is popped, and the instruction
    pointer becomes [target] exactly when the condition holds. *)
Definition claimed_cond_jump (o : OpCode) (vm : VM) (ip : Z) (io : Stdio)
    (v : Z) (l : list Z) (target : Z) : Prop :=
  exists ip' vm' io',
    vm_step ip vm io = Ret ip' vm' io' /\
    stack_holds (stack vm') l /\
    (ip' = target <->
     match o with OP_JZ => v = 0 | _ => v <> 0 end).

(** CALL with the immediate [target]: the engine goes on running at
    [target] (with a frame pushed for the return to [ip + 2]). *)
Definition claimed_call (vm : VM) (ip : Z) (io : Stdio) (target : Z) : Prop :=
  exists vm' io',
    vm_step ip vm io = Ret target vm' io' /\ running vm' = running vm.

(** The end of a run: whenever [vm_run] returns, the running flag is
    clear. *)
Definition claimed_stopped (vm : VM) (io : Stdio) : Prop :=
  forall vm' io', vm_run vm io = Ret tt vm' io' -> running vm' = false.

(** The engine that [vm_init] leaves over the assembled bytes [bs]. *)
Definition init_vm (bs : list byte) : VM :=
  match vm_init (assemble bs) blank_vm empty_io with
  | Ret _ vm _ => vm
  | _ => blank_vm
  end.

(** The opcodes whose case in [vm_run] assigns the running flag: STOP, DIV
    (on a zero divisor) and every byte handled by the default case. *)
Definition clears_running (op : byte) : bool :=
  match OpCode_of_byte op with
  | Some OP_NOP | Some OP_PUSH | Some OP_POP | Some OP_DUP | Some OP_SWAP
  | Some OP_ADD | Some OP_SUB | Some OP_MUL | Some OP_PRINT => false
  | _ => true
  end.

(** ** Properties of a computation of the engine *)

(** [steps m Q]: whenever [m] returns, its result satisfies [Q], the
    segment is the one it was and the running flag was left alone or
    cleared; and [m] never runs out of fuel (it has no loop). *)
Definition steps {A} (m : M VM A) (Q : A -> Prop) : Prop :=
  forall vm io,
    match m vm io with
    | Ret a vm' io' =>
        Q a /\ code_segment vm' = code_segment vm /\
        (running vm' = running vm \/ running vm' = false)
    | OutOfFuel => False
    | _ => True
    end.

(** [keeps m]: [m] returns with the running flag as it found it. *)
Definition keeps {A} (m : M VM A) : Prop :=
  forall vm io,
    match m vm io with
    | Ret _ vm' _ => running vm' = running vm
    | _ => True
    end.

(** * Further definitions: the rest of the engine's behaviour *)

(** The messages of the fatal faults of the operand stack. *)
Definition underflow_msg : string := String.append "Stack Underflow " LF.
Definition empty_stack_msg : string := String.append "Empty Stack " LF.

(** The opcodes whose case begins with a call of [vm_pop]. *)
Definition pops_first (o : OpCode) : bool :=
  match o with
  | OP_POP | OP_SWAP | OP_ADD | OP_SUB | OP_MUL | OP_DIV | OP_PRINT => true
  | _ => false
  end.

(** The opcodes whose case calls [vm_pop] twice before anything else. *)
Definition pops_twice (o : OpCode) : bool :=
  match o with
  | OP_SWAP | OP_ADD | OP_SUB | OP_MUL | OP_DIV => true
  | _ => false
  end.

(** The bytes that have a case of their own in the [switch] of [vm_run]. *)
Definition handled (op : byte) : bool :=
  match OpCode_of_byte op with
  | Some OP_NOP | Some OP_PUSH | Some OP_POP | Some OP_DUP | Some OP_SWAP
  | Some OP_ADD | Some OP_SUB | Some OP_MUL | Some OP_DIV
  | Some OP_PRINT | Some OP_STOP => true
  | _ => false
  end.

(** The number of bytes an instruction takes in the code. *)
Definition instr_size (op : byte) : Z :=
  match OpCode_of_byte op with
  | Some OP_PUSH => 2
  | _ => 1
  end.

(** The invariant of the operand stack: the array has its
    [STACK_MAX_SIZE] cells and [top] is between [-1] and
    [STACK_MAX_SIZE - 1]. *)
Definition stack_inv (s : Stack) : Prop :=
  Z.of_nat (length (data s)) = STACK_MAX_SIZE /\
  -1 <= top s <= STACK_MAX_SIZE - 1.

(** The three messages that precede a call of [exit]. *)
Definition is_fatal_msg (msg : string) : Prop :=
  msg = overflow_msg \/ msg = underflow_msg \/ msg = empty_stack_msg.

(** [extends io io']: the streams [io'] are the streams [io] with text
    added at their ends. *)
Definition extends (io io' : Stdio) : Prop :=
  exists o e,
    stdout io' = String.append (stdout io) o /\
    stderr io' = String.append (stderr io) e.

(** [guarded U m]: from an engine whose stack satisfies the invariant, [m]
    keeps the invariant and only adds to the streams; when it ends the
    process, the status is 1 and the last thing written is one of the
    three fatal messages, on the standard error stream; it is without
    result only if [U]. *)
Definition guarded {A} (U : Prop) (m : M VM A) : Prop :=
  forall vm io,
    stack_inv (stack vm) ->
    match m vm io with
    | Ret _ vm' io' => stack_inv (stack vm') /\ extends io io'
    | Exit n vm' io' =>
        n = 1 /\ stack_inv (stack vm') /\
        exists io1 msg,
          extends io io1 /\ is_fatal_msg msg /\ io' = fprintf_stderr msg io1
    | Undefined => U
    | OutOfFuel => True
    end.

(** ** Sequences of operations on the call stack *)

(** [cs_holds cs fs]: the array has its [CALL_STACK_MAX] cells and the
    cells [0 .. count - 1] hold the frames [fs], the most recent first. *)
Definition cs_holds (cs : CallStack) (fs : list CallFrame) : Prop :=
  Z.of_nat (length (frames cs)) = CALL_STACK_MAX /\
  count cs = Z.of_nat (length fs) /\
  Z.of_nat (length fs) <= CALL_STACK_MAX /\
  take (length fs) (frames cs) = reverse fs.

(** The frames pushed one after the other by [call_stack_push]. *)
Fixpoint call_stack_pushes (fs : list CallFrame) : M CallStack unit :=
  match fs with
  | [] => ret tt
  | f :: fs' =>
      call_stack_push (return_addr f) (frame_pointer f) ;;
      call_stack_pushes fs'
  end.

(** [n] calls of [call_stack_pop]; the frames returned, in order. *)
Fixpoint call_stack_pops (n : nat) : M CallStack (list CallFrame) :=
  match n with
  | O => ret []
  | S n' =>
      let* f := call_stack_pop in
      let* fs := call_stack_pops n' in
      ret (f :: fs)
  end.

Definition call_overflow_msg : string := String.append "Call stack overflow" LF.
Definition call_underflow_msg : string := String.append "Call stack underflow" LF.

(** What the capacity of a segment created with capacity [c] is allowed
    to be once [n] bytes have been appended: [c] itself while the bytes
    fit, afterwards [c] doubled a number of times, at least [n] and at
    most [2 * (n - 1)]. *)
Definition capacity_after (c n cap : Z) : Prop :=
  (exists k : nat, cap = c * 2 ^ Z.of_nat k) /\
  ((n <= c /\ cap = c) \/ (c < n /\ n <= cap <= 2 * (n - 1))).

(** The byte code [PUSH b1, PUSH b2, ...] for the immediates [imms]. *)
Fixpoint push_program (imms : list byte) : list byte :=
  match imms with
  | [] => []
  | b :: imms' => OpCode_byte OP_PUSH :: b :: push_program imms'
  end.

(** The values that [PUSH b1, PUSH b2, ...] leaves on the stack, the last
    one pushed first. *)
Definition pushed (imms : list byte) : list Z := reverse (map Int.of_byte imms).

(** ** The running flag and the operands of DIV *)

(** [s->data[s->top]], when the index is inside the array. *)
Definition top_value (s : Stack) : option Z :=
  if in_data (top s) then data s !! Z.to_nat (top s) else None.

(** [s->data[s->top - 1]], when the index is inside the array. *)
Definition second_value (s : Stack) : option Z :=
  if in_data (top s - 1) then data s !! Z.to_nat (top s - 1) else None.

(** The iterations whose case assigns [false] to [vm->running]: STOP,
    every byte of the default case, and DIV when the value it pops first
    (the divisor, on top of the stack) is zero. *)
Definition halting (op : byte) (vm : VM) : bool :=
  match OpCode_of_byte op with
  | Some OP_NOP | Some OP_PUSH | Some OP_POP | Some OP_DUP | Some OP_SWAP
  | Some OP_ADD | Some OP_SUB | Some OP_MUL | Some OP_PRINT => false
  | Some OP_DIV =>
      match top_value (stack vm) with
      | Some b => Int.to_int32 (Int.to_uint32 b) =? 0
      | None => false
      end
  | _ => true
  end.

(** * Properties *)

(** ** Machine integers *)

Lemma to_int32_range z : Int.in_int32 (Int.to_int32 z).
Proof.
  unfold Int.in_int32, Int.to_int32, Int.INT32_MIN, Int.INT32_MAX.
  pose proof (Z.mod_pos_bound (z + 2147483648) 4294967296 eq_refl). lia.
Qed.

Lemma to_int32_id z : Int.in_int32 z -> Int.to_int32 z = z.
Proof.
  unfold Int.in_int32, Int.to_int32, Int.INT32_MIN, Int.INT32_MAX. intros H.
  rewrite Z.mod_small by lia. lia.
Qed.

Lemma to_int32_to_uint32 z : Int.to_int32 (Int.to_uint32 z) = Int.to_int32 z.
Proof.
  unfold Int.to_int32, Int.to_uint32.
  rewrite Zplus_mod_idemp_l. reflexivity.
Qed.

Lemma of_byte_range b : 0 <= Int.of_byte b <= 255.
Proof.
  unfold Int.of_byte. pose proof (Byte.to_N_bounded b). lia.
Qed.

(** ** The operand stack *)

Lemma stack_init_holds s io :
  Z.of_nat (length (data s)) = STACK_MAX_SIZE ->
  exists s', stack_init s io = Ret tt s' io /\ stack_holds s' [].
Proof.
  intros Hd. eexists. split; [reflexivity|].
  repeat split; simpl; [exact Hd | unfold STACK_MAX_SIZE; lia].
Qed.

Lemma stack_push_holds s l v io :
  stack_holds s l -> Z.of_nat (length l) < STACK_MAX_SIZE ->
  exists s', stack_push v s io = Ret tt s' io /\ stack_holds s' (v :: l).
Proof.
  intros (Hd & Ht & Hl & Htk) Hlt.
  unfold stack_push, stack_isFull, in_data, STACK_MAX_SIZE in *.
  rewrite Ht.
  replace (Z.of_nat (length l) - 1 + 1) with (Z.of_nat (length l)) by lia.
  destruct (Z.leb_spec (1024 - 1) (Z.of_nat (length l) - 1)); [lia|].
  destruct (Z.leb_spec 0 (Z.of_nat (length l))); [|lia].
  destruct (Z.ltb_spec (Z.of_nat (length l)) 1024); [|lia].
  simpl. eexists. split; [reflexivity|].
  rewrite Nat2Z.id.
  unfold stack_holds, STACK_MAX_SIZE. repeat split; simpl.
  - rewrite length_insert. exact Hd.
  - lia.
  - lia.
  - rewrite (take_S_r _ _ v).
    + rewrite take_insert_ge by lia. rewrite Htk, reverse_cons. reflexivity.
    + apply list_lookup_insert_eq. lia.
Qed.

Lemma stack_holds_lookup s l v :
  stack_holds s (v :: l) -> data s !! length l = Some v.
Proof.
  intros (Hd & Ht & Hl & Htk). unfold STACK_MAX_SIZE in *. simpl in *.
  rewrite <- (lookup_take_lt _ (S (length l))) by lia.
  rewrite Htk, reverse_cons.
  rewrite lookup_app_r by (rewrite length_reverse; lia).
  rewrite length_reverse, Nat.sub_diag. reflexivity.
Qed.

Lemma stack_holds_tail s l v :
  stack_holds s (v :: l) ->
  stack_holds {| data := data s; top := top s - 1 |} l.
Proof.
  intros (Hd & Ht & Hl & Htk). simpl length in *.
  unfold stack_holds, STACK_MAX_SIZE in *.
  repeat split; simpl; [exact Hd|lia|lia|].
  apply (f_equal (take (length l))) in Htk.
  rewrite take_take, reverse_cons in Htk.
  rewrite Nat.min_l in Htk by lia.
  rewrite take_app_length' in Htk by (rewrite length_reverse; reflexivity).
  exact Htk.
Qed.

Lemma stack_pop_holds s l v io :
  stack_holds s (v :: l) ->
  exists s', stack_pop s io = Ret v s' io /\ stack_holds s' l.
Proof.
  intros H. pose proof (stack_holds_lookup _ _ _ H) as Hv.
  pose proof (stack_holds_tail _ _ _ H) as Htl.
  destruct H as (Hd & Ht & Hl & Htk). simpl length in *.
  unfold stack_pop, stack_isEmpty, in_data, STACK_MAX_SIZE in *.
  rewrite Ht.
  destruct (Z.eqb_spec (Z.of_nat (S (length l)) - 1) (-1)); [lia|].
  destruct (Z.leb_spec 0 (Z.of_nat (S (length l)) - 1)); [|lia].
  destruct (Z.ltb_spec (Z.of_nat (S (length l)) - 1) 1024); [|lia].
  simpl andb. cbv iota.
  replace (Z.to_nat (Z.of_nat (S (length l)) - 1)) with (length l) by lia.
  rewrite Hv. eexists. split; [reflexivity|].
  rewrite <- Ht. exact Htl.
Qed.

Lemma stack_peek_holds s l v io :
  stack_holds s (v :: l) -> stack_peek s io = Ret v s io.
Proof.
  intros H. pose proof (stack_holds_lookup _ _ _ H) as Hv.
  destruct H as (Hd & Ht & Hl & Htk). simpl length in *.
  unfold stack_peek, in_data, STACK_MAX_SIZE in *.
  rewrite Ht.
  destruct (Z.ltb_spec (Z.of_nat (S (length l)) - 1) 0); [lia|].
  destruct (Z.leb_spec 0 (Z.of_nat (S (length l)) - 1)); [|lia].
  destruct (Z.ltb_spec (Z.of_nat (S (length l)) - 1) 1024); [|lia].
  simpl andb. cbv iota.
  replace (Z.to_nat (Z.of_nat (S (length l)) - 1)) with (length l) by lia.
  rewrite Hv. reflexivity.
Qed.

Lemma stack_holds_size s l : stack_holds s l -> stack_size s = Z.of_nat (length l).
Proof. intros (_ & Ht & _). unfold stack_size. lia. Qed.

Lemma stack_run_app ops1 ops2 s io :
  stack_run (ops1 ++ ops2) s io =
  (let* ps1 := stack_run ops1 in
   let* ps2 := stack_run ops2 in
   ret (ps1 ++ ps2)) s io.
Proof.
  revert s io. induction ops1 as [|[v|] ops1 IH]; intros s io; simpl;
    unfold bind, ret in *.
  - destruct (stack_run ops2 s io); reflexivity.
  - destruct (stack_push v s io); auto.
  - destruct (stack_pop s io) as [x s' io'| | |]; auto.
    rewrite IH.
    destruct (stack_run ops1 s' io') as [ps1 s1 io1| | |]; auto.
    destruct (stack_run ops2 s1 io1); auto.
Qed.

(** A valid sequence runs to its end, pops what the list discipline pops
    and leaves what it leaves. *)
Lemma stack_run_lifo ops : forall s l io,
  stack_holds s l ->
  valid_ops (Z.of_nat (length l)) ops = true ->
  exists s',
    stack_run ops s io = Ret (fst (lifo ops l)) s' io /\
    stack_holds s' (snd (lifo ops l)) /\
    stack_size s' = Z.of_nat (length l) + count_push ops - count_pop ops.
Proof.
  induction ops as [|[v|] ops IH]; intros s l io Hs Hv; simpl in *.
  - exists s. split; [reflexivity|]. split; [exact Hs|].
    rewrite (stack_holds_size _ _ Hs). lia.
  - apply andb_true_iff in Hv as [Hn Hv]. apply Z.ltb_lt in Hn.
    destruct (stack_push_holds s l v io Hs Hn) as (s1 & Hp & Hs1).
    destruct (IH s1 (v :: l) io Hs1) as (s' & Hr & Hs' & Hsz).
    { simpl length. rewrite Nat2Z.inj_succ. unfold Z.succ. exact Hv. }
    exists s'. unfold bind. rewrite Hp. split; [exact Hr|].
    split; [exact Hs'|]. rewrite Hsz. simpl length. lia.
  - apply andb_true_iff in Hv as [Hn Hv]. apply Z.ltb_lt in Hn.
    destruct l as [|x l]; [simpl in Hn; lia|].
    destruct (stack_pop_holds s l x io Hs) as (s1 & Hp & Hs1).
    destruct (IH s1 l io Hs1) as (s' & Hr & Hs' & Hsz).
    { simpl length in Hv. rewrite Nat2Z.inj_succ in Hv.
      replace (Z.succ (Z.of_nat (length l)) - 1) with (Z.of_nat (length l))
        in Hv by lia. exact Hv. }
    exists s'. unfold bind. rewrite Hp, Hr.
    destruct (lifo ops l) as [ps r]. simpl in *.
    split; [reflexivity|]. split; [exact Hs'|]. rewrite Hsz. lia.
Qed.

Lemma valid_ops_pushes vs : forall n,
  0 <= n -> n + Z.of_nat (length vs) <= STACK_MAX_SIZE ->
  valid_ops n (map OpPush vs) = true.
Proof.
  unfold STACK_MAX_SIZE.
  induction vs as [|v vs IH]; intros n Hn Hle; simpl; [reflexivity|].
  simpl length in Hle. apply andb_true_iff. split.
  - apply Z.ltb_lt. unfold STACK_MAX_SIZE. lia.
  - apply IH; lia.
Qed.

Lemma lifo_pushes vs l : lifo (map OpPush vs) l = ([], reverse vs ++ l).
Proof.
  revert l. induction vs as [|v vs IH]; intros l; simpl; [reflexivity|].
  rewrite IH, reverse_cons, <- app_assoc. reflexivity.
Qed.

Lemma stack_run_pushes vs s l io :
  stack_holds s l ->
  Z.of_nat (length l) + Z.of_nat (length vs) <= STACK_MAX_SIZE ->
  exists s',
    stack_run (map OpPush vs) s io = Ret [] s' io /\
    stack_holds s' (reverse vs ++ l).
Proof.
  intros Hs Hle.
  destruct (stack_run_lifo (map OpPush vs) s l io Hs) as (s' & Hr & Hs' & _).
  { apply valid_ops_pushes; lia. }
  rewrite lifo_pushes in Hr, Hs'. exists s'. split; assumption.
Qed.

Lemma stack_holds_full s l :
  stack_holds s l -> Z.of_nat (length l) = STACK_MAX_SIZE ->
  data s = reverse l /\ top s = STACK_MAX_SIZE - 1 /\ stack_isFull s = true.
Proof.
  intros (Hd & Ht & Hl & Htk) Hn. split; [|split].
  - rewrite <- Htk. symmetry. apply take_ge. lia.
  - lia.
  - unfold stack_isFull. apply Z.leb_le. lia.
Qed.

(** C6: a push on a stack that is already at capacity ends the process with
    the overflow message and leaves the array and the top index as they
    were; in particular, of [STACK_MAX_SIZE + 1] pushes on a fresh stack
    the first [STACK_MAX_SIZE] succeed and the last one faults before its
    value is stored. *)
Theorem stack_overflow_fault (s0 : Stack) (vs : list Z) (v : Z) (io : Stdio) :
  Z.of_nat (length (data s0)) = STACK_MAX_SIZE ->
  Z.of_nat (length vs) = STACK_MAX_SIZE ->
  (forall s, stack_isFull s = true ->
     stack_push v s io = Exit 1 s (fprintf_stderr overflow_msg io)) /\
  exists s1 s',
    stack_init s0 io = Ret tt s1 io /\
    stack_run (map OpPush vs) s1 io = Ret [] s' io /\
    data s' = vs /\ top s' = STACK_MAX_SIZE - 1 /\
    stack_run (map OpPush (vs ++ [v])) s1 io =
      Exit 1 s' (fprintf_stderr overflow_msg io).
Proof.
  intros Hd Hn. split.
  - intros s Hfull. unfold stack_push. rewrite Hfull. reflexivity.
  - destruct (stack_init_holds s0 io Hd) as (s1 & Hi & Hs1).
    destruct (stack_run_pushes vs s1 [] io Hs1) as (s' & Hr & Hs').
    { simpl length. lia. }
    rewrite app_nil_r in Hs'.
    destruct (stack_holds_full s' (reverse vs) Hs') as (Hdata & Htop & Hfull).
    { rewrite length_reverse. exact Hn. }
    rewrite reverse_involutive in Hdata.
    exists s1, s'. repeat split; try assumption.
    rewrite map_app, stack_run_app. unfold bind at 1. rewrite Hr.
    unfold bind at 1. simpl stack_run. unfold bind at 1.
    unfold stack_push. rewrite Hfull. reflexivity.
Qed.

Lemma stack_overflow_fault_witness :
  exists s',
    stack_run (map OpPush (replicate 1024 7 ++ [9]))
      {| data := data zero_stack; top := -1 |} empty_io =
    Exit 1 s' (fprintf_stderr overflow_msg empty_io) /\
    data s' = replicate 1024 7.
Proof.
  destruct (stack_overflow_fault zero_stack (replicate 1024 7) 9 empty_io)
    as (_ & s1 & s' & Hi & _ & Hdata & _ & He).
  - vm_compute. reflexivity.
  - vm_compute. reflexivity.
  - injection Hi as <-. exists s'. split; assumption.
Defined.

(** C9: a sequence of pushes and pops that never pops an empty stack and
    never pushes a full one runs to its end; afterwards the logical size of
    the stack has grown by the number of pushes minus the number of pops
    (from the empty stack it is exactly that difference), and the values
    come out last in, first out: the values popped are those the list
    discipline pops, and values pushed in a row are popped in the reverse
    order of their pushes. *)
Theorem stack_lifo_law (s : Stack) (l : list Z) (ops : list stack_op)
    (io : Stdio) :
  stack_holds s l ->
  valid_ops (Z.of_nat (length l)) ops = true ->
  (exists s',
     stack_run ops s io = Ret (fst (lifo ops l)) s' io /\
     stack_holds s' (snd (lifo ops l)) /\
     stack_size s' = stack_size s + count_push ops - count_pop ops /\
     (l = [] -> stack_size s' = count_push ops - count_pop ops)) /\
  (forall vs,
     Z.of_nat (length l) + Z.of_nat (length vs) <= STACK_MAX_SIZE ->
     exists s',
       stack_run (map OpPush vs ++ replicate (length vs) OpPop) s io =
         Ret (reverse vs) s' io /\
       stack_holds s' l).
Proof.
  intros Hs Hv. split.
  - destruct (stack_run_lifo ops s l io Hs Hv) as (s' & Hr & Hs' & Hsz).
    exists s'. rewrite (stack_holds_size _ _ Hs).
    split; [exact Hr|]. split; [exact Hs'|]. split; [exact Hsz|].
    intros ->. rewrite Hsz. simpl length. lia.
  - intros vs Hle.
    destruct (stack_run_pushes vs s l io Hs Hle) as (s1 & Hr1 & Hs1).
    pose proof (stack_run_lifo (replicate (length vs) OpPop ++ []) s1
                  (reverse vs ++ l) io Hs1) as H.
    rewrite app_nil_r in H.
    assert (Hgen : forall (a b : list Z) s2,
               stack_holds s2 (a ++ b) ->
               exists s', stack_run (replicate (length a) OpPop) s2 io
                          = Ret a s' io /\ stack_holds s' b).
    { clear. induction a as [|x a IH]; intros b s2 Hs2; simpl in *.
      - exists s2. split; [reflexivity | exact Hs2].
      - destruct (stack_pop_holds s2 (a ++ b) x io Hs2) as (s3 & Hp & Hs3).
        destruct (IH b s3 Hs3) as (s' & Hr & Hs').
        exists s'. unfold bind, ret. rewrite Hp, Hr. split; [reflexivity|exact Hs']. }
    destruct (Hgen (reverse vs) l s1 Hs1) as (s' & Hr2 & Hs').
    rewrite length_reverse in Hr2.
    exists s'. split; [|exact Hs'].
    rewrite stack_run_app. unfold bind, ret. rewrite Hr1, Hr2. reflexivity.
Qed.

Lemma stack_lifo_law_witness :
  exists s',
    stack_run [OpPush 1; OpPush 2; OpPop; OpPush 3; OpPop; OpPop]
      {| data := data zero_stack; top := -1 |} empty_io =
    Ret [2; 3; 1] s' empty_io /\
    stack_size s' = 0.
Proof.
  destruct (stack_lifo_law {| data := data zero_stack; top := -1 |} []
              [OpPush 1; OpPush 2; OpPop; OpPush 3; OpPop; OpPop] empty_io)
    as ((s' & Hr & _ & Hsz & _) & _).
  - repeat split; vm_compute; congruence.
  - vm_compute. reflexivity.
  - exists s'. split; [exact Hr | exact Hsz].
Defined.

(** ** The engine: calls on the operand stack *)

Lemma vm_at_set_stack vm seg r l s l' :
  vm_at vm seg r l -> stack_holds s l' -> vm_at (set_stack vm s) seg r l'.
Proof. intros (Hc & Hr & _) Hs. split; [|split]; assumption. Qed.

Lemma vm_push_at vm seg r l v io :
  vm_at vm seg r l -> Z.of_nat (length l) < STACK_MAX_SIZE ->
  exists vm', vm_push v vm io = Ret tt vm' io /\ vm_at vm' seg r (v :: l).
Proof.
  intros Hat Hlt. pose proof Hat as (_ & _ & Hs).
  destruct (stack_push_holds _ _ v io Hs Hlt) as (s' & Hp & Hs').
  exists (set_stack vm s'). unfold vm_push, on_stack. rewrite Hp.
  split; [reflexivity | eapply vm_at_set_stack; eassumption].
Qed.

Lemma vm_pop_at vm seg r l v io :
  vm_at vm seg r (v :: l) ->
  exists vm', vm_pop vm io = Ret (Int.to_uint32 v) vm' io /\ vm_at vm' seg r l.
Proof.
  intros Hat. pose proof Hat as (_ & _ & Hs).
  destruct (stack_pop_holds _ _ _ io Hs) as (s' & Hp & Hs').
  exists (set_stack vm s'). unfold vm_pop, bind, on_stack, ret. rewrite Hp.
  split; [reflexivity | eapply vm_at_set_stack; eassumption].
Qed.

Lemma set_running_at vm seg r l r' io :
  vm_at vm seg r l ->
  exists vm', set_running r' vm io = Ret tt vm' io /\ vm_at vm' seg r' l.
Proof.
  intros (Hc & Hr & Hs). eexists. split; [reflexivity|].
  split; [|split]; simpl; auto.
Qed.

Lemma fetch_at vm seg r l ip b io :
  vm_at vm seg r l -> code_at seg ip = Some b -> fetch ip vm io = Ret b vm io.
Proof. intros (Hc & _) Hb. unfold fetch. rewrite Hc, Hb. reflexivity. Qed.

Lemma int32_pop v : Int.in_int32 v -> Int.to_int32 (Int.to_uint32 v) = v.
Proof. intros H. rewrite to_int32_to_uint32. apply to_int32_id, H. Qed.

(** Start of an iteration: the opcode is fetched and decoded. *)
Ltac fetch_opcode Hat Hop :=
  unfold vm_step; unfold bind at 1;
  rewrite (fetch_at _ _ _ _ _ _ _ Hat Hop); cbv beta iota;
  cbn [OpCode_of_byte OpCode_byte].

(** One call in a sequence: rewrite with its equation [H]. *)
Ltac call H := unfold bind at 1; rewrite H; cbv beta iota.

(** ** The engine: one iteration per opcode *)

Lemma stack_holds_room s x l :
  stack_holds s (x :: l) -> Z.of_nat (length l) < STACK_MAX_SIZE.
Proof. intros (_ & _ & Hl & _). simpl length in Hl. lia. Qed.

Lemma vm_at_room2 vm seg r x y l :
  vm_at vm seg r (x :: y :: l) -> Z.of_nat (length l) < STACK_MAX_SIZE.
Proof.
  intros (_ & _ & Hs). apply stack_holds_room in Hs. simpl length in Hs. lia.
Qed.

Lemma push_step vm seg r ip imm l io :
  code_at seg ip = Some (OpCode_byte OP_PUSH) ->
  code_at seg (ip + 1) = Some imm ->
  vm_at vm seg r l ->
  Z.of_nat (length l) < STACK_MAX_SIZE ->
  exists vm',
    vm_step ip vm io = Ret (ip + 2) vm' io /\
    vm_at vm' seg r (Int.of_byte imm :: l).
Proof.
  intros Hop Himm Hat Hlt. fetch_opcode Hat Hop.
  call (fetch_at _ _ _ _ _ _ io Hat Himm).
  rewrite to_int32_id.
  2:{ pose proof (of_byte_range imm).
      unfold Int.in_int32, Int.INT32_MIN, Int.INT32_MAX. lia. }
  destruct (vm_push_at _ _ _ _ (Int.of_byte imm) io Hat Hlt) as (vm' & Hp & Hat').
  call Hp. exists vm'. unfold ret.
  replace (ip + 1 + 1) with (ip + 2) by lia. split; [reflexivity | exact Hat'].
Qed.

Lemma pop2_at vm seg r a b l io (k : Z -> Z -> M VM Z) :
  vm_at vm seg r (b :: a :: l) ->
  Int.in_int32 a -> Int.in_int32 b ->
  exists vm1,
    vm_at vm1 seg r l /\
    (let* y := vm_pop in
     let y := Int.to_int32 y in
     let* x := vm_pop in
     let x := Int.to_int32 x in
     k x y) vm io = k a b vm1 io.
Proof.
  intros Hat Ha Hb.
  destruct (vm_pop_at _ _ _ _ _ io Hat) as (vm0 & Hp0 & Hat0).
  destruct (vm_pop_at _ _ _ _ _ io Hat0) as (vm1 & Hp1 & Hat1).
  exists vm1. split; [exact Hat1|].
  call Hp0. call Hp1. rewrite !int32_pop by assumption. reflexivity.
Qed.

(** ADD, SUB and MUL: the two operands are popped, the one result pushed. *)
Lemma arith_step_at (o : OpCode) (f : Z -> Z -> Z) vm seg r ip a b l io :
  arith_op o = Some f ->
  code_at seg ip = Some (OpCode_byte o) ->
  vm_at vm seg r (b :: a :: l) ->
  Int.in_int32 a -> Int.in_int32 b ->
  exists vm',
    vm_step ip vm io = Ret (ip + 1) vm' io /\
    vm_at vm' seg r (Int.to_int32 (f a b) :: l) /\
    stack_size (stack vm') = stack_size (stack vm) - 2 + 1 /\
    (Int.in_int32 (f a b) -> Int.to_int32 (f a b) = f a b).
Proof.
  intros Hf Hop Hat Ha Hb.
  pose proof (vm_at_room2 _ _ _ _ _ _ Hat) as Hlt.
  assert (Hsz : forall vm', vm_at vm' seg r (Int.to_int32 (f a b) :: l) ->
                stack_size (stack vm') = stack_size (stack vm) - 2 + 1).
  { intros vm' (_ & _ & Hs'). destruct Hat as (_ & _ & Hs).
    rewrite (stack_holds_size _ _ Hs), (stack_holds_size _ _ Hs').
    simpl length. lia. }
  destruct o; simpl in Hf; try discriminate; injection Hf as <-;
    fetch_opcode Hat Hop.
  - destruct (pop2_at vm seg r a b l io
                (fun x y => vm_push (Int.to_int32 (x + y)) ;; ret (ip + 1))
                Hat Ha Hb) as (vm1 & Hat1 & Heq).
    destruct (vm_push_at _ _ _ _ (Int.to_int32 (a + b)) io Hat1 Hlt)
      as (vm' & Hp & Hat').
    exists vm'. split; [|split; [exact Hat'|split; [auto|apply to_int32_id]]].
    etransitivity; [exact Heq|]. call Hp. reflexivity.
  - destruct (pop2_at vm seg r a b l io
                (fun x y => vm_push (Int.to_int32 (x - y)) ;; ret (ip + 1))
                Hat Ha Hb) as (vm1 & Hat1 & Heq).
    destruct (vm_push_at _ _ _ _ (Int.to_int32 (a - b)) io Hat1 Hlt)
      as (vm' & Hp & Hat').
    exists vm'. split; [|split; [exact Hat'|split; [auto|apply to_int32_id]]].
    etransitivity; [exact Heq|]. call Hp. reflexivity.
  - destruct (pop2_at vm seg r a b l io
                (fun x y => vm_push (Int.to_int32 (x * y)) ;; ret (ip + 1))
                Hat Ha Hb) as (vm1 & Hat1 & Heq).
    destruct (vm_push_at _ _ _ _ (Int.to_int32 (a * b)) io Hat1 Hlt)
      as (vm' & Hp & Hat').
    exists vm'. split; [|split; [exact Hat'|split; [auto|apply to_int32_id]]].
    etransitivity; [exact Heq|]. call Hp. reflexivity.
Qed.

Lemma print_step vm seg r ip v l io :
  code_at seg ip = Some (OpCode_byte OP_PRINT) ->
  vm_at vm seg r (v :: l) ->
  Int.in_int32 v ->
  exists vm',
    vm_step ip vm io =
      Ret (ip + 1) vm' (printf (String.append (fmt_d v) LF) io) /\
    vm_at vm' seg r l.
Proof.
  intros Hop Hat Hv. fetch_opcode Hat Hop.
  destruct (vm_pop_at _ _ _ _ _ io Hat) as (vm' & Hp & Hat').
  call Hp. rewrite int32_pop by assumption.
  exists vm'. split; [reflexivity | exact Hat'].
Qed.

Lemma stop_step vm seg r ip l io :
  code_at seg ip = Some (OpCode_byte OP_STOP) ->
  vm_at vm seg r l ->
  exists vm',
    vm_step ip vm io = Ret (ip + 1) vm' io /\ vm_at vm' seg false l.
Proof.
  intros Hop Hat. fetch_opcode Hat Hop.
  destruct (set_running_at _ _ _ _ false io Hat) as (vm' & Hp & Hat').
  call Hp. exists vm'. split; [reflexivity | exact Hat'].
Qed.

Lemma div_zero_step vm seg r ip a l io :
  code_at seg ip = Some (OpCode_byte OP_DIV) ->
  vm_at vm seg r (0 :: a :: l) ->
  Int.in_int32 a ->
  exists vm',
    vm_step ip vm io = Ret (ip + 1) vm' (fprintf_stderr div_zero_msg io) /\
    vm_at vm' seg false l.
Proof.
  intros Hop Hat Ha. fetch_opcode Hat Hop.
  destruct (pop2_at vm seg r a 0 l io
              (fun x y =>
                 if y =? 0 then
                   put_stderr (String.append "Error: Division by zero" LF) ;;
                   set_running false ;; ret (ip + 1)
                 else let* q := int32_div x y in vm_push q ;; ret (ip + 1))
              Hat Ha) as (vm1 & Hat1 & Heq).
  { unfold Int.in_int32, Int.INT32_MIN, Int.INT32_MAX. lia. }
  destruct (set_running_at vm1 _ _ _ false (fprintf_stderr div_zero_msg io) Hat1)
    as (vm' & Hp & Hat').
  exists vm'. split; [|exact Hat'].
  etransitivity; [exact Heq|]. simpl Z.eqb. cbv iota.
  unfold bind at 1. unfold put_stderr. fold div_zero_msg.
  call Hp. reflexivity.
Qed.

Lemma div_step vm seg r ip a b l io :
  code_at seg ip = Some (OpCode_byte OP_DIV) ->
  vm_at vm seg r (b :: a :: l) ->
  Int.in_int32 a -> Int.in_int32 b ->
  b <> 0 ->
  (a = Int.INT32_MIN /\ b = -1 -> vm_step ip vm io = Undefined) /\
  (~ (a = Int.INT32_MIN /\ b = -1) ->
   exists vm',
     vm_step ip vm io = Ret (ip + 1) vm' io /\
     vm_at vm' seg r (Z.quot a b :: l)).
Proof.
  intros Hop Hat Ha Hb Hnz.
  pose proof (vm_at_room2 _ _ _ _ _ _ Hat) as Hlt.
  destruct (pop2_at vm seg r a b l io
              (fun x y =>
                 if y =? 0 then
                   put_stderr (String.append "Error: Division by zero" LF) ;;
                   set_running false ;; ret (ip + 1)
                 else let* q := int32_div x y in vm_push q ;; ret (ip + 1))
              Hat Ha Hb) as (vm1 & Hat1 & Heq).
  destruct (Z.eqb_spec b 0) as [|_]; [contradiction|].
  split.
  - intros [Ea Eb]. fetch_opcode Hat Hop.
    etransitivity; [exact Heq|]. subst a b. reflexivity.
  - intros Hrep. fetch_opcode Hat Hop.
    destruct (vm_push_at _ _ _ _ (Z.quot a b) io Hat1 Hlt) as (vm' & Hp & Hat').
    exists vm'. split; [|exact Hat'].
    etransitivity; [exact Heq|].
    unfold bind at 1, int32_div.
    destruct (Z.eqb_spec a Int.INT32_MIN) as [Ea|_];
      destruct (Z.eqb_spec b (-1)) as [Eb|_]; simpl andb; cbv iota;
      try (exfalso; apply Hrep; split; assumption).
    all: call Hp; reflexivity.
Qed.

Lemma default_step vm seg r ip op l io :
  code_at seg ip = Some op ->
  match OpCode_of_byte op with
  | None | Some OP_JMP | Some OP_JZ | Some OP_JNZ | Some OP_CALL
  | Some OP_RET | Some OP_LOAD | Some OP_STORE => True
  | _ => False
  end ->
  vm_at vm seg r l ->
  exists vm',
    vm_step ip vm io =
      Ret (ip + 1) vm' (fprintf_stderr (unknown_opcode_msg op) io) /\
    vm_at vm' seg false l /\
    stack vm' = stack vm.
Proof.
  intros Hop Hdef Hat.
  unfold vm_step; unfold bind at 1.
  rewrite (fetch_at _ _ _ _ _ _ _ Hat Hop); cbv beta iota.
  destruct Hat as (Hc & Hr & Hs).
  exists {| code_segment := code_segment vm; stack := stack vm;
            running := false |}.
  split; [|split; [split; [|split]; simpl; auto | reflexivity]].
  destruct (OpCode_of_byte op) as [[]|]; try contradiction; reflexivity.
Qed.

(** ** The run loop *)

Lemma steps_ret {A} (a : A) (Q : A -> Prop) : Q a -> steps (ret a) Q.
Proof. intros H vm io. simpl. auto. Qed.

Lemma steps_bind {A B} (m : M VM A) (k : A -> M VM B) P Q :
  steps m P -> (forall a, P a -> steps (k a) Q) -> steps (bind m k) Q.
Proof.
  intros Hm Hk vm io. unfold bind. specialize (Hm vm io).
  destruct (m vm io) as [a vm1 io1| | |]; auto.
  destruct Hm as (Ha & Hc & Hr). specialize (Hk a Ha vm1 io1).
  destruct (k a vm1 io1) as [b vm2 io2| | |]; auto.
  destruct Hk as (Hb & Hc2 & Hr2). rewrite Hc2, Hc. split; [exact Hb|].
  split; [reflexivity|]. destruct Hr2 as [Hr2|Hr2]; [|auto].
  rewrite Hr2. exact Hr.
Qed.

Lemma steps_on_stack {A} (m : M Stack A) :
  (forall s io, m s io <> OutOfFuel) -> steps (on_stack m) (fun _ => True).
Proof.
  intros Hm vm io. unfold on_stack. specialize (Hm (stack vm) io).
  destruct (m (stack vm) io); simpl; auto.
Qed.

Lemma stack_push_fuel v s io : stack_push v s io <> OutOfFuel.
Proof. unfold stack_push. repeat case_match; discriminate. Qed.

Lemma stack_pop_fuel s io : stack_pop s io <> OutOfFuel.
Proof. unfold stack_pop. repeat case_match; discriminate. Qed.

Lemma stack_peek_fuel s io : stack_peek s io <> OutOfFuel.
Proof. unfold stack_peek. repeat case_match; discriminate. Qed.

Lemma steps_vm_push v : steps (vm_push v) (fun _ => True).
Proof. apply steps_on_stack, stack_push_fuel. Qed.

Lemma steps_peek : steps (on_stack stack_peek) (fun _ => True).
Proof. apply steps_on_stack, stack_peek_fuel. Qed.

Lemma steps_vm_pop : steps vm_pop (fun _ => True).
Proof.
  unfold vm_pop. eapply steps_bind.
  - apply steps_on_stack, stack_pop_fuel.
  - intros a _. apply steps_ret. exact I.
Qed.

Lemma steps_fetch ip : steps (fetch ip) (fun _ => True).
Proof.
  intros vm io. unfold fetch.
  destruct (code_at (code_segment vm) ip); simpl; auto.
Qed.

Lemma steps_set_running r : r = false -> steps (set_running r) (fun _ => True).
Proof. intros -> vm io. simpl. auto. Qed.

Lemma steps_put_stderr msg : steps (put_stderr msg) (fun _ => True).
Proof. intros vm io. simpl. auto. Qed.

Lemma steps_put_stdout msg : steps (put_stdout msg) (fun _ => True).
Proof. intros vm io. simpl. auto. Qed.

Lemma steps_int32_div a b : steps (int32_div a b) (fun _ => True).
Proof.
  intros vm io. unfold int32_div.
  destruct ((a =? Int.INT32_MIN) && (b =? -1)); simpl; auto.
Qed.

Create HintDb vm_steps.
#[local] Hint Resolve steps_vm_push steps_peek steps_vm_pop steps_fetch
  steps_set_running steps_put_stderr steps_put_stdout steps_int32_div
  : vm_steps.

Ltac steps_tac :=
  repeat first
    [ apply steps_ret; lia
    | eapply steps_bind; [solve [eauto with vm_steps] | intros ? _; cbv zeta]
    | match goal with |- steps (if ?c then _ else _) _ => destruct c end ].

Lemma steps_vm_step ip : steps (vm_step ip) (fun ip' => ip < ip' <= ip + 2).
Proof.
  unfold vm_step. eapply steps_bind; [apply steps_fetch|].
  intros op _. cbv zeta.
  destruct (OpCode_of_byte op) as [[]|]; steps_tac.
Qed.

(** What every iteration that returns does to the engine: the segment is
    not touched, the instruction pointer moves forward by one or two, and
    the running flag is left alone or cleared. *)
Lemma vm_step_inv ip vm io ip' vm' io' :
  vm_step ip vm io = Ret ip' vm' io' ->
  code_segment vm' = code_segment vm /\
  ip < ip' <= ip + 2 /\
  (running vm' = running vm \/ running vm' = false).
Proof.
  intros H. pose proof (steps_vm_step ip vm io) as Hs. rewrite H in Hs.
  tauto.
Qed.

Lemma vm_step_fuel ip vm io : vm_step ip vm io <> OutOfFuel.
Proof.
  intros H. pose proof (steps_vm_step ip vm io) as Hs. rewrite H in Hs.
  exact Hs.
Qed.

(** ** The run loop *)

Lemma vm_loop_next n ip vm io seg l ip' vm' io' :
  vm_at vm seg true l ->
  ip < CodeSegment.length seg ->
  vm_step ip vm io = Ret ip' vm' io' ->
  vm_loop (S n) ip vm io = vm_loop n ip' vm' io'.
Proof.
  intros (Hc & Hr & _) Hlt Hstep. simpl. rewrite Hc, Hr.
  destruct (Z.ltb_spec ip (CodeSegment.length seg)); [|lia].
  simpl andb. cbv iota. unfold bind. rewrite Hstep. reflexivity.
Qed.

Lemma vm_loop_stopped n ip vm io seg l :
  vm_at vm seg false l -> vm_loop n ip vm io = Ret ip vm io.
Proof. intros (_ & Hr & _). destruct n; simpl; rewrite Hr; reflexivity. Qed.

(** The bound of the unrolling is never reached: every iteration moves the
    instruction pointer forward. *)
Lemma vm_loop_fuel fuel : forall ip vm io,
  CodeSegment.length (code_segment vm) - ip <= Z.of_nat fuel ->
  vm_loop fuel ip vm io <> OutOfFuel.
Proof.
  induction fuel as [|n IH]; intros ip vm io Hle; simpl.
  - destruct (Z.ltb_spec ip (CodeSegment.length (code_segment vm))); [lia|].
    rewrite andb_false_r. discriminate.
  - destruct (running vm && (ip <? CodeSegment.length (code_segment vm)));
      [|discriminate].
    unfold bind. destruct (vm_step ip vm io) as [ip' vm' io'| | |] eqn:Hs;
      try discriminate.
    + destruct (vm_step_inv _ _ _ _ _ _ Hs) as (Hc & Hip & _).
      apply IH. rewrite Hc. lia.
    + exfalso. exact (vm_step_fuel _ _ _ Hs).
Qed.

(** On leaving the loop the segment is the one run, and either the running
    flag is clear or the instruction pointer is at or past the length. *)
Lemma vm_loop_exit fuel : forall ip vm io ip' vm' io',
  vm_loop fuel ip vm io = Ret ip' vm' io' ->
  code_segment vm' = code_segment vm /\
  ip <= ip' /\
  (running vm' = false \/
   (running vm' = true /\ CodeSegment.length (code_segment vm') <= ip')).
Proof.
  induction fuel as [|n IH]; intros ip vm io ip' vm' io' H; simpl in H.
  - destruct (running vm) eqn:Hr;
      destruct (Z.ltb_spec ip (CodeSegment.length (code_segment vm)));
      simpl in H; try discriminate; injection H as <- <- <-;
      (split; [reflexivity | split; [lia | auto]]).
  - destruct (running vm) eqn:Hr;
      destruct (Z.ltb_spec ip (CodeSegment.length (code_segment vm)));
      simpl in H; try (injection H as <- <- <-;
                       split; [reflexivity | split; [lia | auto]]).
    unfold bind in H.
    destruct (vm_step ip vm io) as [ip1 vm1 io1| | |] eqn:Hs;
      try discriminate.
    destruct (vm_step_inv _ _ _ _ _ _ Hs) as (Hc & Hip & _).
    destruct (IH _ _ _ _ _ _ H) as (Hc' & Hip' & Hex).
    split; [congruence | split; [lia | exact Hex]].
Qed.

(** ** The code segment *)

Lemma length_realloc io p n :
  0 <= n -> Z.of_nat (length (realloc io p n)) <= n.
Proof.
  intros Hn. unfold realloc. destruct (allocates io n); [|simpl; lia].
  rewrite length_app, length_take, length_replicate. lia.
Qed.

Lemma realloc_grow io p n :
  allocates io n = true ->
  Z.of_nat (length p) <= n ->
  realloc io p n = p ++ replicate (Z.to_nat n - length p) None.
Proof.
  intros Hg H. unfold realloc. rewrite Hg, take_ge by lia. reflexivity.
Qed.

Lemma segment_holds_code_at seg bs i b :
  segment_holds seg bs -> bs !! i = Some b -> code_at seg (Z.of_nat i) = Some b.
Proof.
  intros (Hc & Hl & Hle & Hbs) Hi. unfold code_at, in_block.
  pose proof (lookup_lt_Some _ _ _ Hi) as Hlt.
  destruct (Z.leb_spec 0 (Z.of_nat i)); [|lia].
  destruct (Z.ltb_spec (Z.of_nat i) (Z.of_nat (length (CodeSegment.code seg))));
    [|lia].
  simpl. rewrite Nat2Z.id, (Hbs _ _ Hi). reflexivity.
Qed.

Lemma code_segment_init_holds c seg0 io :
  0 <= c ->
  allocates io c = true ->
  exists seg,
    code_segment_init c seg0 io = Ret tt seg io /\
    segment_holds seg [] /\ CodeSegment.capacity seg = c.
Proof.
  intros Hc Hg. eexists. split; [reflexivity|]. split; [|reflexivity].
  repeat split; simpl.
  - unfold malloc. rewrite Hg, length_replicate. lia.
  - exact Hc.
  - intros i b Hi. discriminate.
Qed.

(** A byte stored at index [length] of a buffer that holds [bs]. *)
Lemma store_holds (p : list (option byte)) bs b cap :
  Z.of_nat (length p) = cap ->
  Z.of_nat (length bs) < cap ->
  (forall i x, bs !! i = Some x -> p !! i = Some (Some x)) ->
  segment_holds
    {| CodeSegment.code := <[Z.to_nat (Z.of_nat (length bs)) := Some b]> p;
       CodeSegment.length := Z.of_nat (length bs) + 1;
       CodeSegment.capacity := cap |} (bs ++ [b]).
Proof.
  intros Hp Hlt Hbs. rewrite Nat2Z.id. repeat split; simpl.
  - rewrite length_insert. exact Hp.
  - rewrite length_app. simpl length. lia.
  - lia.
  - intros i x Hi. destruct (decide (i = length bs)) as [->|Hne].
    + rewrite list_lookup_middle in Hi by reflexivity. injection Hi as <-.
      apply list_lookup_insert_eq. lia.
    + rewrite list_lookup_insert_ne by auto. apply Hbs.
      pose proof (lookup_lt_Some _ _ _ Hi) as Hl. rewrite length_app in Hl.
      simpl length in Hl. rewrite lookup_app_l in Hi by lia. exact Hi.
Qed.

(** [code_segment_write] on a segment that holds [bs]: when there is room
    or the capacity can be doubled the byte is appended; when doubling the
    capacity wraps around, the write falls outside the new block. *)
Lemma code_segment_write_cases seg bs b io :
  segment_holds seg bs ->
  0 < CodeSegment.capacity seg ->
  (can_append io seg ->
   exists seg',
     code_segment_write b seg io = Ret tt seg' io /\
     segment_holds seg' (bs ++ [b]) /\
     CodeSegment.length seg' = CodeSegment.length seg + 1 /\
     (if CodeSegment.capacity seg <=? CodeSegment.length seg
      then CodeSegment.capacity seg' = CodeSegment.capacity seg * 2
      else CodeSegment.capacity seg' = CodeSegment.capacity seg)) /\
  (~ can_append io seg -> code_segment_write b seg io = Undefined).
Proof.
  intros (Hc & Hl & Hle & Hbs) Hpos. unfold can_append, Int.SIZE_MAX.
  unfold code_segment_write, Int.to_size.
  destruct (Z.leb_spec (CodeSegment.capacity seg) (CodeSegment.length seg))
    as [Hfull|Hroom]; cbv zeta.
  - (* the buffer is full *)
    assert (Hr : 0 <= (CodeSegment.capacity seg * 2) mod 18446744073709551616
                 < 18446744073709551616) by (apply Z.mod_pos_bound; lia).
    split.
    + intros [Hlt|[Hdbl Hg]]; [lia|].
      rewrite Z.mod_small by lia. cbn [CodeSegment.code CodeSegment.length
                                        CodeSegment.capacity].
      rewrite realloc_grow by (auto; lia).
      unfold in_block. rewrite length_app, length_replicate.
      destruct (Z.leb_spec 0 (CodeSegment.length seg)); [|lia].
      destruct (Z.ltb_spec (CodeSegment.length seg)
                  (Z.of_nat (length (CodeSegment.code seg) +
                             (Z.to_nat (CodeSegment.capacity seg * 2) -
                              length (CodeSegment.code seg))))); [|lia].
      simpl andb. cbv iota. eexists. split; [reflexivity|].
      rewrite Hl. split; [|split; [reflexivity|reflexivity]].
      apply store_holds.
      * rewrite length_app, length_replicate. lia.
      * lia.
      * intros i x Hi. pose proof (lookup_lt_Some _ _ _ Hi).
        rewrite lookup_app_l by lia. apply Hbs, Hi.
    + intros Hno.
      cbn [CodeSegment.code CodeSegment.length CodeSegment.capacity].
      assert (Hblock :
                Z.of_nat (length (realloc io (CodeSegment.code seg)
                   ((CodeSegment.capacity seg * 2) mod 18446744073709551616)))
                <= CodeSegment.length seg).
      { destruct (Z_le_gt_dec (CodeSegment.capacity seg * 2)
                    18446744073709551615) as [Hfit|Hwrap].
        - (* the allocator refuses: a null pointer *)
          rewrite Z.mod_small by lia. unfold realloc.
          destruct (allocates io (CodeSegment.capacity seg * 2)) eqn:Hg;
            [exfalso; apply Hno; right; split; [exact Hfit | reflexivity]|].
          simpl. lia.
        - (* the doubled capacity wraps around: a smaller block *)
          pose proof (length_realloc io (CodeSegment.code seg)
                        ((CodeSegment.capacity seg * 2)
                           mod 18446744073709551616) ltac:(lia)) as Hlr.
          assert (Hw : (CodeSegment.capacity seg * 2) mod 18446744073709551616
                       < CodeSegment.capacity seg).
          { destruct (Z_lt_le_dec (CodeSegment.capacity seg)
                        18446744073709551616); [|lia].
            pose proof (Z_div_mod_eq_full (CodeSegment.capacity seg * 2)
                          18446744073709551616) as Hdm.
            assert (1 <= (CodeSegment.capacity seg * 2) / 18446744073709551616).
            { apply Z.div_le_lower_bound; lia. }
            lia. }
          lia. }
      unfold in_block.
      destruct (Z.ltb_spec (CodeSegment.length seg)
                  (Z.of_nat (length (realloc io (CodeSegment.code seg)
                     ((CodeSegment.capacity seg * 2)
                        mod 18446744073709551616))))); [lia|].
      rewrite andb_false_r. reflexivity.
  - (* there is room *)
    split; [|intros Hno; exfalso; apply Hno; left; exact Hroom].
    intros _. unfold in_block.
    destruct (Z.leb_spec 0 (CodeSegment.length seg)); [|lia].
    destruct (Z.ltb_spec (CodeSegment.length seg)
                (Z.of_nat (length (CodeSegment.code seg)))); [|lia].
    simpl andb. cbv iota. eexists. split; [reflexivity|].
    rewrite Hl. split; [|split; [reflexivity|reflexivity]].
    destruct seg as [p len cap]. simpl in *.
    apply store_holds; [exact Hc | lia | exact Hbs].
Qed.

Lemma can_append_dec io seg : can_append io seg \/ ~ can_append io seg.
Proof.
  unfold can_append.
  destruct (allocates io (CodeSegment.capacity seg * 2)); [|intuition lia].
  destruct (Z_lt_le_dec (CodeSegment.length seg) (CodeSegment.capacity seg));
    [left; left; assumption|].
  destruct (Z_le_gt_dec (CodeSegment.capacity seg * 2) Int.SIZE_MAX);
    [left; right; auto | right; intros [?|[? _]]; lia].
Qed.

Lemma code_segment_writes_holds bs : forall seg pre io seg' io',
  segment_holds seg pre ->
  0 < CodeSegment.capacity seg ->
  code_segment_writes bs seg io = Ret tt seg' io' ->
  segment_holds seg' (pre ++ bs) /\ 0 < CodeSegment.capacity seg' /\ io' = io.
Proof.
  induction bs as [|b bs IH]; intros seg pre io seg' io' Hs Hpos Hr;
    simpl in Hr.
  - injection Hr as <- <-. rewrite app_nil_r. auto.
  - unfold bind in Hr.
    destruct (code_segment_write_cases seg pre b io Hs Hpos) as (Hyes & Hno).
    destruct (can_append_dec io seg) as [Hcan|Hcan].
    + destruct (Hyes Hcan) as (seg1 & Hw & Hs1 & _ & Hcap). rewrite Hw in Hr.
      assert (Hpos1 : 0 < CodeSegment.capacity seg1)
        by (destruct (CodeSegment.capacity seg <=? CodeSegment.length seg); lia).
      destruct (IH _ _ _ _ _ Hs1 Hpos1 Hr) as (Hs' & Hpos' & Hio).
      rewrite <- app_assoc in Hs'. auto.
    + rewrite (Hno Hcan) in Hr. discriminate.
Qed.

Lemma code_segment_writes_total c bs : forall seg pre io,
  segment_holds seg pre ->
  0 < CodeSegment.capacity seg ->
  CodeSegment.capacity seg <= Z.max c (2 * Z.of_nat (length pre)) ->
  c <= 2 ^ 62 ->
  Z.of_nat (length pre) + Z.of_nat (length bs) <= 2 ^ 62 ->
  (forall n, allocates io n = true) ->
  exists seg', code_segment_writes bs seg io = Ret tt seg' io.
Proof.
  induction bs as [|b bs IH]; intros seg pre io Hs Hpos Hcap Hc Hn Hg; simpl.
  - exists seg. reflexivity.
  - simpl length in Hn.
    destruct (code_segment_write_cases seg pre b io Hs Hpos) as (Hyes & _).
    pose proof Hs as (_ & Hl & Hle & _).
    destruct Hyes as (seg1 & Hw & Hs1 & _ & Hcap1).
    { unfold can_append, Int.SIZE_MAX. rewrite Hg.
      change (2 ^ 62) with 4611686018427387904 in *. lia. }
    assert (Hpos1 : 0 < CodeSegment.capacity seg1)
      by (destruct (CodeSegment.capacity seg <=? CodeSegment.length seg); lia).
    destruct (IH seg1 (pre ++ [b]) io Hs1 Hpos1) as (seg' & Hr).
    + rewrite length_app. simpl length.
      destruct (Z.leb_spec (CodeSegment.capacity seg) (CodeSegment.length seg));
        lia.
    + exact Hc.
    + rewrite length_app. simpl length. lia.
    + exact Hg.
    + exists seg'. unfold bind. rewrite Hw. exact Hr.
Qed.

(** ** Whole runs *)

Lemma vm_init_at seg vm0 io :
  Z.of_nat (length (data (stack vm0))) = STACK_MAX_SIZE ->
  exists vm1, vm_init seg vm0 io = Ret tt vm1 io /\ vm_at vm1 seg false [].
Proof.
  intros Hd. eexists. split; [reflexivity|].
  split; [reflexivity | split; [reflexivity|]].
  destruct (stack_init_holds (stack vm0) io Hd) as (s' & Hi & Hs').
  injection Hi as <-. exact Hs'.
Qed.

Lemma vm_run_start vm seg r l io :
  vm_at vm seg r l ->
  vm_run vm io =
    (let* _ := vm_loop (Z.to_nat (CodeSegment.length seg)) 0 in ret tt)
      (started vm) io /\
  vm_at (started vm) seg true l.
Proof.
  intros (Hc & Hr & Hs). split.
  - rewrite <- Hc. reflexivity.
  - split; [exact Hc | split; [reflexivity | exact Hs]].
Qed.

Lemma in_int32_small z : -2147483648 <= z <= 2147483647 -> Int.in_int32 z.
Proof. intros H. exact H. Qed.

(** The run of [PUSH 5, PUSH 4, ADD, PRINT, STOP] from an engine that
    runs it with an empty stack. *)
Lemma sample_loop vm seg io :
  holds_program seg sample_program ->
  vm_at vm seg true [] ->
  exists vm',
    vm_loop 7 0 vm io = Ret 7 vm' (printf (String.append "9" LF) io) /\
    vm_at vm' seg false [].
Proof.
  intros (Hlen & Hcode) Hat. simpl length in Hlen.
  assert (Hroom0 : Z.of_nat (length (@nil Z)) < STACK_MAX_SIZE) by reflexivity.
  destruct (push_step vm seg true 0 x05 [] io (Hcode 0%nat _ eq_refl)
              (Hcode 1%nat _ eq_refl) Hat Hroom0) as (vm1 & H1 & Hat1).
  assert (Hroom1 : Z.of_nat (length [Int.of_byte x05]) < STACK_MAX_SIZE)
    by reflexivity.
  destruct (push_step vm1 seg true 2 x04 _ io (Hcode 2%nat _ eq_refl)
              (Hcode 3%nat _ eq_refl) Hat1 Hroom1) as (vm2 & H2 & Hat2).
  destruct (arith_step_at OP_ADD Z.add vm2 seg true 4 5 4 [] io eq_refl
              (Hcode 4%nat _ eq_refl) Hat2) as (vm3 & H3 & Hat3 & _);
    [apply in_int32_small; lia | apply in_int32_small; lia |].
  change (Int.to_int32 (5 + 4)) with 9 in Hat3.
  destruct (print_step vm3 seg true 5 9 [] io (Hcode 5%nat _ eq_refl) Hat3)
    as (vm4 & H4 & Hat4); [apply in_int32_small; lia|].
  destruct (stop_step vm4 seg true 6 [] (printf (String.append "9" LF) io)
              (Hcode 6%nat _ eq_refl) Hat4) as (vm5 & H5 & Hat5).
  exists vm5. split; [|exact Hat5].
  change (Z.of_nat 7) with 7 in Hlen.
  do 5 (erewrite vm_loop_next; [|eassumption|lia|eassumption]).
  apply (vm_loop_stopped _ _ _ _ _ _ Hat5).
Qed.

Lemma run_sample_at vm0 seg io :
  Z.of_nat (length (data (stack vm0))) = STACK_MAX_SIZE ->
  holds_program seg sample_program ->
  exists vm',
    (vm_init seg ;; vm_run) vm0 io =
      Ret tt vm' (printf (String.append "9" LF) io) /\
    vm_at vm' seg false [].
Proof.
  intros Hd Hprog.
  destruct (vm_init_at seg vm0 io Hd) as (vm1 & Hi & Hat1).
  destruct (vm_run_start _ _ _ _ io Hat1) as (Hrun & Hat2).
  destruct (sample_loop _ _ io Hprog Hat2) as (vm' & Hloop & Hat').
  exists vm'. split; [|exact Hat'].
  unfold bind at 1. rewrite Hi, Hrun.
  destruct Hprog as (Hlen & _). rewrite Hlen.
  change (Z.to_nat (Z.of_nat (length sample_program))) with 7%nat.
  unfold bind. rewrite Hloop. reflexivity.
Qed.

Lemma assemble_sample_holds : holds_program (assemble sample_program) sample_program.
Proof.
  split; [reflexivity|].
  intros i b H.
  do 7 (destruct i as [|i]; [injection H as <-; reflexivity|]).
  discriminate.
Qed.

(** The first eight calls of [main] leave the assembled segment, when
    [malloc] returns a block. *)
Lemma main_assembles {A} code0 vm0 io (k : M (CodeSegment.t * VM) A) :
  allocates io 256 = true ->
  (on_fst (code_segment_init 256) ;;
   on_fst (code_segment_write (OpCode_byte OP_PUSH)) ;;
   on_fst (code_segment_write x05) ;;
   on_fst (code_segment_write (OpCode_byte OP_PUSH)) ;;
   on_fst (code_segment_write x04) ;;
   on_fst (code_segment_write (OpCode_byte OP_ADD)) ;;
   on_fst (code_segment_write (OpCode_byte OP_PRINT)) ;;
   on_fst (code_segment_write (OpCode_byte OP_STOP)) ;;
   k) (code0, vm0) io =
  k (assemble sample_program, vm0) io.
Proof.
  intros Hg. unfold bind at 1. unfold on_fst at 1.
  unfold code_segment_init, malloc. cbn [fst snd]. rewrite Hg. reflexivity.
Qed.

(** C1: the engine, initialised over a segment that holds
    [PUSH 5, PUSH 4, ADD, PRINT, STOP] and run, writes [9] and a line
    terminator to the standard output and nothing else, and returns with
    the running flag clear and the stack empty; [main], which assembles
    these bytes, prints [9], then [Run finished], and returns 0 (when its
    [malloc] returns a block; [main] does not test for a null pointer and
    stores its first byte through it otherwise). *)
Theorem run_sample_program (vm0 : VM) (seg code0 : CodeSegment.t) (io : Stdio) :
  Z.of_nat (length (data (stack vm0))) = STACK_MAX_SIZE ->
  holds_program seg sample_program ->
  (exists vm',
     (vm_init seg ;; vm_run) vm0 io =
       Ret tt vm' (printf (String.append "9" LF) io) /\
     running vm' = false /\
     stack_size (stack vm') = 0) /\
  (allocates io 256 = true ->
   exists st',
     main (code0, vm0) io =
       Ret 0 st' (printf (String.append "Run finished" LF)
                    (printf (String.append "9" LF) io)) /\
     running (snd st') = false).
Proof.
  intros Hd Hprog. split.
  - destruct (run_sample_at vm0 seg io Hd Hprog) as (vm' & Hrun & Hat).
    exists vm'. split; [exact Hrun|]. destruct Hat as (_ & Hr & Hs).
    split; [exact Hr|]. apply (stack_holds_size _ _ Hs).
  - intros Hg.
    destruct (run_sample_at vm0 (assemble sample_program) io Hd
                assemble_sample_holds) as (vm' & Hrun & Hat).
    exists (assemble sample_program, vm').
    split; [|apply Hat].
    unfold main. rewrite main_assembles by exact Hg.
    destruct (vm_init_at (assemble sample_program) vm0 io Hd) as (vm1 & Hi & _).
    unfold bind at 1 in Hrun. rewrite Hi in Hrun.
    unfold bind at 1. unfold on_snd at 1. cbn [fst snd]. rewrite Hi.
    unfold bind at 1. unfold on_snd at 1. cbn [fst snd]. rewrite Hrun.
    reflexivity.
Qed.

(** The run of [PUSH 10, PUSH 0, DIV, PRINT, STOP]: the loop is left at the
    index of PRINT, with the fault on the standard error stream. *)
Lemma div_zero_loop vm seg io :
  holds_program seg div_zero_program ->
  vm_at vm seg true [] ->
  exists vm',
    vm_loop 7 0 vm io = Ret 5 vm' (fprintf_stderr div_zero_msg io) /\
    vm_at vm' seg false [].
Proof.
  intros (Hlen & Hcode) Hat. simpl length in Hlen.
  assert (Hroom0 : Z.of_nat (length (@nil Z)) < STACK_MAX_SIZE) by reflexivity.
  destruct (push_step vm seg true 0 x0a [] io (Hcode 0%nat _ eq_refl)
              (Hcode 1%nat _ eq_refl) Hat Hroom0) as (vm1 & H1 & Hat1).
  assert (Hroom1 : Z.of_nat (length [Int.of_byte x0a]) < STACK_MAX_SIZE)
    by reflexivity.
  destruct (push_step vm1 seg true 2 x00 _ io (Hcode 2%nat _ eq_refl)
              (Hcode 3%nat _ eq_refl) Hat1 Hroom1) as (vm2 & H2 & Hat2).
  destruct (div_zero_step vm2 seg true 4 10 [] io (Hcode 4%nat _ eq_refl) Hat2)
    as (vm3 & H3 & Hat3); [apply in_int32_small; lia|].
  exists vm3. split; [|exact Hat3].
  change (Z.of_nat 7) with 7 in Hlen.
  do 3 (erewrite vm_loop_next; [|eassumption|lia|eassumption]).
  apply (vm_loop_stopped _ _ _ _ _ _ Hat3).
Qed.

Lemma run_div_zero_at vm0 seg io :
  Z.of_nat (length (data (stack vm0))) = STACK_MAX_SIZE ->
  holds_program seg div_zero_program ->
  exists vm',
    (vm_init seg ;; vm_run) vm0 io = Ret tt vm' (fprintf_stderr div_zero_msg io) /\
    vm_at vm' seg false [].
Proof.
  intros Hd Hprog.
  destruct (vm_init_at seg vm0 io Hd) as (vm1 & Hi & Hat1).
  destruct (vm_run_start _ _ _ _ io Hat1) as (Hrun & Hat2).
  destruct (div_zero_loop _ _ io Hprog Hat2) as (vm' & Hloop & Hat').
  exists vm'. split; [|exact Hat'].
  unfold bind at 1. rewrite Hi, Hrun.
  destruct Hprog as (Hlen & _). rewrite Hlen.
  change (Z.to_nat (Z.of_nat (length div_zero_program))) with 7%nat.
  unfold bind. rewrite Hloop. reflexivity.
Qed.

(** ** The call stack *)

Lemma call_stack_push_pop cs ra fp io :
  Z.of_nat (length (frames cs)) = CALL_STACK_MAX ->
  0 <= count cs < CALL_STACK_MAX ->
  exists cs1 cs2,
    call_stack_push ra fp cs io = Ret tt cs1 io /\
    count cs1 = count cs + 1 /\
    call_stack_pop cs1 io =
      Ret {| return_addr := ra; frame_pointer := fp |} cs2 io /\
    count cs2 = count cs /\
    forall i, (i < Z.to_nat (count cs))%nat -> frames cs2 !! i = frames cs !! i.
Proof.
  unfold CALL_STACK_MAX. intros Hf Hc.
  unfold call_stack_push, call_stack_pop, in_frames, CALL_STACK_MAX.
  destruct (Z.leb_spec 256 (count cs)); [lia|].
  destruct (Z.leb_spec 0 (count cs)); [|lia].
  destruct (Z.ltb_spec (count cs) 256); [|lia].
  simpl andb. cbv iota.
  eexists. eexists. split; [reflexivity|]. split; [reflexivity|].
  cbn [count frames].
  destruct (Z.leb_spec (count cs + 1) 0); [lia|]. cbv zeta.
  replace (count cs + 1 - 1) with (count cs) by lia.
  destruct (Z.leb_spec 0 (count cs)); [|lia].
  destruct (Z.ltb_spec (count cs) 256); [|lia].
  simpl andb. cbv iota.
  rewrite list_lookup_insert_eq by lia.
  split; [reflexivity|]. split; [reflexivity|].
  intros i Hi. cbn [frames]. apply list_lookup_insert_ne. lia.
Qed.

(** ** Which iterations clear the running flag *)

Lemma keeps_ret {A} (a : A) : keeps (ret a).
Proof. intros vm io. reflexivity. Qed.

Lemma keeps_bind {A B} (m : M VM A) (k : A -> M VM B) :
  keeps m -> (forall a, keeps (k a)) -> keeps (bind m k).
Proof.
  intros Hm Hk vm io. unfold bind. specialize (Hm vm io).
  destruct (m vm io) as [a vm1 io1| | |]; auto.
  specialize (Hk a vm1 io1). destruct (k a vm1 io1); auto. congruence.
Qed.

Lemma keeps_on_stack {A} (m : M Stack A) : keeps (on_stack m).
Proof.
  intros vm io. unfold on_stack. destruct (m (stack vm) io); reflexivity.
Qed.

Lemma keeps_vm_pop : keeps vm_pop.
Proof.
  apply keeps_bind; [apply keeps_on_stack | intros; apply keeps_ret].
Qed.

Lemma keeps_fetch ip : keeps (fetch ip).
Proof.
  intros vm io. unfold fetch.
  destruct (code_at (code_segment vm) ip); reflexivity.
Qed.

Lemma keeps_put_stdout msg : keeps (put_stdout msg).
Proof. intros vm io. reflexivity. Qed.

Ltac keeps_tac :=
  repeat first
    [ apply keeps_ret
    | apply keeps_vm_pop
    | apply keeps_fetch
    | apply keeps_put_stdout
    | apply keeps_on_stack
    | apply keeps_bind; [|intros ?; cbv zeta] ].

Lemma vm_step_keeps ip vm io op ip' vm' io' :
  code_at (code_segment vm) ip = Some op ->
  clears_running op = false ->
  vm_step ip vm io = Ret ip' vm' io' ->
  running vm' = running vm.
Proof.
  intros Hop Hcl Hs. unfold vm_step in Hs. unfold bind at 1 in Hs.
  unfold fetch in Hs. rewrite Hop in Hs. cbv beta iota zeta in Hs.
  unfold clears_running in Hcl.
  assert (Hk : forall m : M VM Z, keeps m -> m vm io = Ret ip' vm' io' ->
                                  running vm' = running vm).
  { intros m Hm Hr. specialize (Hm vm io). rewrite Hr in Hm. exact Hm. }
  destruct (OpCode_of_byte op) as [[]|]; try discriminate Hcl;
    (eapply Hk; [|exact Hs]); unfold vm_push; keeps_tac.
Qed.

(** * The claims *)

(** A concrete segment holds the bytes it was assembled from. *)
Ltac program_holds :=
  split; [reflexivity|];
  let i := fresh "i" in let b := fresh "b" in let H := fresh "H" in
  intros i b H;
  repeat (destruct i as [|i]; [injection H as <-; reflexivity|]);
  discriminate H.

(** A concrete engine is in the state described. *)
Ltac example_at :=
  split; [reflexivity | split; [reflexivity | repeat split; vm_compute; congruence]].

Lemma run_sample_program_witness :
  exists st',
    main (blank_segment, blank_vm) empty_io =
      Ret 0 st' (printf (String.append "Run finished" LF)
                   (printf (String.append "9" LF) empty_io)).
Proof.
  destruct (run_sample_program blank_vm (assemble sample_program)
              blank_segment empty_io) as (_ & Hmain).
  - vm_compute. reflexivity.
  - program_holds.
  - destruct (Hmain eq_refl) as (st' & Hm & _). exists st'. exact Hm.
Defined.

(** DIV wherever its quotient exists: on a stack that holds [b] above [a]
    it pops both.  If
    [b] is zero it writes the division-by-zero message to the standard
    error stream, clears the running flag, pushes nothing and returns to
    the loop (the process is not ended).  If [b] is not zero and the
    quotient is an [int32_t] (every case but [a = -2147483648] with
    [b = -1]) it pushes [a / b], truncated toward zero.  The run of
    [PUSH 10, PUSH 0, DIV, PRINT, STOP] reports the fault and leaves the
    loop at the index of PRINT, nothing printed. *)
Theorem div_faults_or_pushes vm seg r ip a b l io vm0 seg' :
  code_at seg ip = Some (OpCode_byte OP_DIV) ->
  vm_at vm seg r (b :: a :: l) ->
  Int.in_int32 a -> Int.in_int32 b ->
  Z.of_nat (length (data (stack vm0))) = STACK_MAX_SIZE ->
  holds_program seg' div_zero_program ->
  (b = 0 ->
   exists vm',
     vm_step ip vm io = Ret (ip + 1) vm' (fprintf_stderr div_zero_msg io) /\
     vm_at vm' seg false l) /\
  (b <> 0 -> ~ (a = Int.INT32_MIN /\ b = -1) ->
   exists vm',
     vm_step ip vm io = Ret (ip + 1) vm' io /\
     vm_at vm' seg r (Z.quot a b :: l)) /\
  (exists vm',
     (vm_init seg' ;; vm_run) vm0 io =
       Ret tt vm' (fprintf_stderr div_zero_msg io) /\
     vm_at vm' seg' false []) /\
  (forall vm1, vm_at vm1 seg' true [] ->
   exists vm',
     vm_loop 7 0 vm1 io = Ret 5 vm' (fprintf_stderr div_zero_msg io) /\
     vm_at vm' seg' false []).
Proof.
  intros Hop Hat Ha Hb Hd Hprog. split; [|split; [|split]].
  - intros ->. apply (div_zero_step _ _ _ _ _ _ _ Hop Hat Ha).
  - intros Hnz Hrep.
    destruct (div_step _ _ _ _ _ _ _ io Hop Hat Ha Hb Hnz) as (_ & H).
    apply H, Hrep.
  - apply run_div_zero_at; assumption.
  - intros vm1 Hat1. apply div_zero_loop; assumption.
Qed.

Lemma div_faults_or_pushes_witness :
  exists vm',
    vm_step 0 (example_vm [OpCode_byte OP_DIV] [0; 10]) empty_io =
      Ret 1 vm' (fprintf_stderr div_zero_msg empty_io) /\
    running vm' = false.
Proof.
  destruct (div_faults_or_pushes (example_vm [OpCode_byte OP_DIV] [0; 10])
              (assemble [OpCode_byte OP_DIV]) true 0 10 0 [] empty_io
              blank_vm (assemble div_zero_program)) as (H0 & _).
  - reflexivity.
  - example_at.
  - unfold Int.in_int32, Int.INT32_MIN, Int.INT32_MAX. lia.
  - unfold Int.in_int32, Int.INT32_MIN, Int.INT32_MAX. lia.
  - vm_compute. reflexivity.
  - program_holds.
  - destruct (H0 eq_refl) as (vm' & Hs & Hat). exists vm'.
    split; [exact Hs | apply Hat].
Defined.

(** C2: the code misses the claim at the one quotient that is not an
    [int32_t].  DIV tests its divisor against zero only: on a stack that
    holds [-1] above [-2147483648] it reports nothing and pushes no
    quotient, the division has no result (the machine division traps);
    byte code that computes the two values without any overflow and
    divides reaches that state. *)
Lemma div_overflow_not_pushed :
  ~ claimed_div (example_vm [OpCode_byte OP_DIV] [-1; Int.INT32_MIN]) 0
      empty_io Int.INT32_MIN (-1) [] /\
  exec div_overflow_program = Undefined.
Proof.
  split.
  - unfold claimed_div. simpl Z.eqb. cbv iota.
    intros (vm' & Hs & _). vm_compute in Hs. discriminate Hs.
  - vm_compute. reflexivity.
Qed.

(** C3, amended: the dispatch of [vm_run] has no case for JZ and JNZ; they
    take the default path.  An execution of either writes the
    unknown-opcode message with the number of the opcode to the standard
    error stream and clears the running flag; no value is popped (the
    stack is the one before), the instruction pointer is just past the
    opcode byte whatever the top of the stack and the immediate are, and
    the loop is left there. *)
Theorem cond_jump_unknown_opcode o vm seg r ip l io :
  o = OP_JZ \/ o = OP_JNZ ->
  code_at seg ip = Some (OpCode_byte o) ->
  vm_at vm seg r l ->
  exists vm',
    vm_step ip vm io =
      Ret (ip + 1) vm' (fprintf_stderr (unknown_opcode_msg (OpCode_byte o)) io) /\
    vm_at vm' seg false l /\
    stack vm' = stack vm /\
    forall n io', vm_loop n (ip + 1) vm' io' = Ret (ip + 1) vm' io'.
Proof.
  intros Ho Hop Hat.
  destruct (default_step vm seg r ip (OpCode_byte o) l io Hop) as
    (vm' & Hs & Hat' & Hst); [destruct Ho as [-> | ->]; exact I | exact Hat |].
  exists vm'. split; [exact Hs|]. split; [exact Hat'|]. split; [exact Hst|].
  intros n io'. apply (vm_loop_stopped _ _ _ _ _ _ Hat').
Qed.

Lemma cond_jump_unknown_opcode_witness :
  exists vm',
    vm_step 0 (example_vm [OpCode_byte OP_JZ; x05] [0]) empty_io =
      Ret 1 vm' (fprintf_stderr (unknown_opcode_msg (OpCode_byte OP_JZ))
                   empty_io) /\
    stack vm' = example_stack [0].
Proof.
  destruct (cond_jump_unknown_opcode OP_JZ
              (example_vm [OpCode_byte OP_JZ; x05] [0])
              (assemble [OpCode_byte OP_JZ; x05]) true 0 [0] empty_io)
    as (vm' & Hs & _ & Hst & _).
  - left. reflexivity.
  - reflexivity.
  - example_at.
  - exists vm'. split; [exact Hs | exact Hst].
Defined.

(** C3 as worded fails: JZ with zero on top of the stack and JNZ with one
    on top of the stack neither pop the value nor jump. *)
Lemma cond_jump_not_taken :
  ~ claimed_cond_jump OP_JZ (example_vm [OpCode_byte OP_JZ; x05] [0]) 0
      empty_io 0 [] 5 /\
  ~ claimed_cond_jump OP_JNZ (example_vm [OpCode_byte OP_JNZ; x05] [1]) 0
      empty_io 1 [] 5.
Proof.
  split; intros (ip' & vm' & io' & Hs & Hh & _); vm_compute in Hs;
    injection Hs as <- <- <-; destruct Hh as (_ & Ht & _);
    vm_compute in Ht; discriminate Ht.
Qed.

(** C4, amended: [call_stack_push] records a frame with the return address
    and the frame pointer and [call_stack_pop] straight after it returns
    that frame and leaves the call stack as it was; but the engine has no
    call stack and the dispatch of [vm_run] has no case for CALL and RET:
    an execution of either writes the unknown-opcode message to the
    standard error stream, clears the running flag, leaves the operand
    stack as it was and the instruction pointer just past the opcode byte,
    where the loop is left. *)
Theorem call_ret_unknown_opcode o vm seg r ip l io cs ra fp :
  o = OP_CALL \/ o = OP_RET ->
  code_at seg ip = Some (OpCode_byte o) ->
  vm_at vm seg r l ->
  Z.of_nat (length (frames cs)) = CALL_STACK_MAX ->
  0 <= count cs < CALL_STACK_MAX ->
  (exists vm',
     vm_step ip vm io =
       Ret (ip + 1) vm'
         (fprintf_stderr (unknown_opcode_msg (OpCode_byte o)) io) /\
     vm_at vm' seg false l /\
     stack vm' = stack vm /\
     forall n io', vm_loop n (ip + 1) vm' io' = Ret (ip + 1) vm' io') /\
  (exists cs1 cs2,
     call_stack_push ra fp cs io = Ret tt cs1 io /\
     count cs1 = count cs + 1 /\
     call_stack_pop cs1 io =
       Ret {| return_addr := ra; frame_pointer := fp |} cs2 io /\
     count cs2 = count cs /\
     forall i, (i < Z.to_nat (count cs))%nat ->
               frames cs2 !! i = frames cs !! i).
Proof.
  intros Ho Hop Hat Hf Hc. split.
  - destruct (default_step vm seg r ip (OpCode_byte o) l io Hop) as
      (vm' & Hs & Hat' & Hst); [destruct Ho as [-> | ->]; exact I | exact Hat |].
    exists vm'. split; [exact Hs|]. split; [exact Hat'|]. split; [exact Hst|].
    intros n io'. apply (vm_loop_stopped _ _ _ _ _ _ Hat').
  - apply call_stack_push_pop; assumption.
Qed.

Lemma call_ret_unknown_opcode_witness :
  exists vm',
    vm_step 0
      (example_vm [OpCode_byte OP_CALL; x03; OpCode_byte OP_STOP;
                   OpCode_byte OP_RET] [7]) empty_io =
      Ret 1 vm' (fprintf_stderr (unknown_opcode_msg (OpCode_byte OP_CALL))
                   empty_io) /\
    running vm' = false.
Proof.
  destruct (call_ret_unknown_opcode OP_CALL
              (example_vm [OpCode_byte OP_CALL; x03; OpCode_byte OP_STOP;
                           OpCode_byte OP_RET] [7])
              (assemble [OpCode_byte OP_CALL; x03; OpCode_byte OP_STOP;
                         OpCode_byte OP_RET]) true 0 [7] empty_io
              example_call_stack 2 0)
    as ((vm' & Hs & Hat & _) & _).
  - left. reflexivity.
  - reflexivity.
  - example_at.
  - vm_compute. reflexivity.
  - unfold CALL_STACK_MAX. simpl. lia.
  - exists vm'. split; [exact Hs | apply Hat].
Defined.

(** C4 as worded fails: CALL with the immediate 3 does not go on at 3. *)
Lemma call_not_taken :
  ~ claimed_call
      (example_vm [OpCode_byte OP_CALL; x03; OpCode_byte OP_STOP;
                   OpCode_byte OP_RET] [7]) 0 empty_io 3.
Proof.
  intros (vm' & io' & Hs & _). vm_compute in Hs. discriminate Hs.
Qed.

(** C5: ADD, SUB and MUL on a stack that holds [b] above [a] pop the two
    values, [b] first, and push the one result [a + b], [a - b] or [a * b]
    as a signed 32-bit value (reduced modulo [2^32] in two's complement,
    hence the integer result itself when that is an [int32_t]); the stack
    is one value shorter and the values below are untouched. *)
Theorem arith_pops_two_pushes_one (o : OpCode) (f : Z -> Z -> Z)
    vm seg r ip a b l io :
  arith_op o = Some f ->
  code_at seg ip = Some (OpCode_byte o) ->
  vm_at vm seg r (b :: a :: l) ->
  Int.in_int32 a -> Int.in_int32 b ->
  exists vm',
    vm_step ip vm io = Ret (ip + 1) vm' io /\
    vm_at vm' seg r (Int.to_int32 (f a b) :: l) /\
    stack_size (stack vm') = stack_size (stack vm) - 2 + 1 /\
    Int.in_int32 (Int.to_int32 (f a b)) /\
    (Int.in_int32 (f a b) -> Int.to_int32 (f a b) = f a b).
Proof.
  intros Hf Hop Hat Ha Hb.
  destruct (arith_step_at o f vm seg r ip a b l io Hf Hop Hat Ha Hb)
    as (vm' & Hs & Hat' & Hsz & Hid).
  exists vm'. split; [exact Hs|]. split; [exact Hat'|]. split; [exact Hsz|].
  split; [apply to_int32_range | exact Hid].
Qed.

Lemma arith_pops_two_pushes_one_witness :
  exists vm',
    vm_step 0 (example_vm [OpCode_byte OP_SUB] [3; 10; 8]) empty_io =
      Ret 1 vm' empty_io /\
    vm_at vm' (assemble [OpCode_byte OP_SUB]) true [7; 8].
Proof.
  destruct (arith_pops_two_pushes_one OP_SUB Z.sub
              (example_vm [OpCode_byte OP_SUB] [3; 10; 8])
              (assemble [OpCode_byte OP_SUB]) true 0 10 3 [8] empty_io)
    as (vm' & Hs & Hat & _).
  - reflexivity.
  - reflexivity.
  - example_at.
  - unfold Int.in_int32, Int.INT32_MIN, Int.INT32_MAX. lia.
  - unfold Int.in_int32, Int.INT32_MIN, Int.INT32_MAX. lia.
  - exists vm'. split; [exact Hs | exact Hat].
Defined.

Lemma vm_run_fuel vm io : vm_run vm io <> OutOfFuel.
Proof.
  unfold vm_run. unfold bind at 1. cbn [set_running]. unfold bind.
  destruct (vm_loop _ 0 _ io) eqn:Hl; try discriminate.
  exfalso. apply vm_loop_fuel in Hl; [exact Hl|]. simpl. lia.
Qed.

(** A call of [vm_pop] that returns has read the value on top. *)
Lemma vm_pop_ret vm io b vm1 io1 :
  vm_pop vm io = Ret b vm1 io1 ->
  exists v,
    top_value (stack vm) = Some v /\ b = Int.to_uint32 v /\
    vm1 = set_stack vm {| data := data (stack vm);
                          top := top (stack vm) - 1 |} /\
    io1 = io.
Proof.
  unfold vm_pop, bind, on_stack, stack_pop, ret, top_value.
  destruct (stack_isEmpty (stack vm)); [discriminate|].
  destruct (in_data (top (stack vm))); [|discriminate].
  destruct (data (stack vm) !! Z.to_nat (top (stack vm))) as [v|];
    [|discriminate].
  intros H. injection H as <- <- <-. exists v. auto.
Qed.

Lemma vm_step_fetched ip vm io ip' vm' io' :
  vm_step ip vm io = Ret ip' vm' io' ->
  exists op, code_at (code_segment vm) ip = Some op.
Proof.
  unfold vm_step. unfold bind at 1. unfold fetch.
  destruct (code_at (code_segment vm) ip) as [op|]; [|discriminate].
  intros _. exists op. reflexivity.
Qed.

Lemma keeps_int32_div a b : keeps (int32_div a b).
Proof.
  intros vm io. unfold int32_div.
  destruct ((a =? Int.INT32_MIN) && (b =? -1)); reflexivity.
Qed.

(** What an iteration that returns does to the running flag. *)
Lemma vm_step_flag ip vm io op ip' vm' io' :
  code_at (code_segment vm) ip = Some op ->
  vm_step ip vm io = Ret ip' vm' io' ->
  running vm' = if halting op vm then false else running vm.
Proof.
  intros Hop Hs.
  destruct (clears_running op) eqn:Hcl.
  - unfold clears_running in Hcl. unfold halting.
    unfold vm_step in Hs. unfold bind at 1 in Hs. unfold fetch in Hs.
    rewrite Hop in Hs. cbv beta iota zeta in Hs.
    destruct (OpCode_of_byte op) as [[]|]; try discriminate Hcl;
      try (injection Hs as <- <- <-; reflexivity).
    (* DIV *)
    unfold bind at 1 in Hs.
    destruct (vm_pop vm io) as [b0 vm1 io1| | |] eqn:Hp1; try discriminate Hs.
    apply vm_pop_ret in Hp1 as (v & Htv & -> & -> & ->). rewrite Htv.
    unfold bind at 1 in Hs.
    destruct (vm_pop _ io) as [a0 vm2 io2| | |] eqn:Hp2; try discriminate Hs.
    apply vm_pop_ret in Hp2 as (w & _ & -> & -> & ->).
    destruct (Int.to_int32 (Int.to_uint32 v) =? 0).
    + injection Hs as <- <- <-. reflexivity.
    + assert (Hk : keeps (let* q := int32_div (Int.to_int32 (Int.to_uint32 w))
                                      (Int.to_int32 (Int.to_uint32 v)) in
                          vm_push q ;; ret (ip + 1))).
      { apply keeps_bind; [apply keeps_int32_div|]. intros q.
        apply keeps_bind; [apply keeps_on_stack | intros; apply keeps_ret]. }
      match type of Hs with ?m ?s ?i = _ =>
        pose proof (Hk s i) as Hkeep end.
      rewrite Hs in Hkeep. exact Hkeep.
  - rewrite (vm_step_keeps _ _ _ _ _ _ _ Hop Hcl Hs).
    unfold clears_running in Hcl. unfold halting.
    destruct (OpCode_of_byte op) as [[]|]; try discriminate Hcl; reflexivity.
Qed.

(** How the loop is left: by the test of the instruction pointer, the
    running flag still set, or by the test of the flag straight after the
    iteration that cleared it. *)
Lemma vm_loop_left fuel : forall ip vm io ip' vm' io',
  vm_loop fuel ip vm io = Ret ip' vm' io' ->
  running vm = true ->
  (running vm' = true /\ CodeSegment.length (code_segment vm) <= ip') \/
  (running vm' = false /\
   exists ipl vml iol op,
     running vml = true /\
     code_segment vml = code_segment vm /\
     ipl < CodeSegment.length (code_segment vm) /\
     code_at (code_segment vm) ipl = Some op /\
     halting op vml = true /\
     vm_step ipl vml iol = Ret ip' vm' io').
Proof.
  induction fuel as [|n IH]; intros ip vm io ip' vm' io' H Hr; simpl in H;
    rewrite Hr in H;
    destruct (Z.ltb_spec ip (CodeSegment.length (code_segment vm)));
    simpl in H; try discriminate H;
    try (injection H as <- <- <-; left; split; [exact Hr | lia]).
  unfold bind in H.
  destruct (vm_step ip vm io) as [ip1 vm1 io1| | |] eqn:Hs; try discriminate H.
  destruct (vm_step_fetched _ _ _ _ _ _ Hs) as (op & Hop).
  pose proof (vm_step_flag _ _ _ _ _ _ _ Hop Hs) as Hflag.
  destruct (vm_step_inv _ _ _ _ _ _ Hs) as (Hc & _ & _).
  destruct (halting op vm) eqn:Hh.
  - (* the flag is clear: the loop is left at once *)
    assert (Hstop : vm_loop n ip1 vm1 io1 = Ret ip1 vm1 io1)
      by (destruct n; simpl; rewrite Hflag; reflexivity).
    rewrite Hstop in H. injection H as <- <- <-.
    right. split; [exact Hflag|]. exists ip, vm, io, op. auto 10.
  - rewrite Hr in Hflag.
    destruct (IH _ _ _ _ _ _ H Hflag) as [Hex|(Hf & ipl & vml & iol & op' & Hx)].
    + left. rewrite <- Hc. exact Hex.
    + right. split; [exact Hf|]. exists ipl, vml, iol, op'.
      rewrite <- Hc. destruct Hx as (? & -> & ?). auto.
Qed.

(** C7, amended: [vm_run] always comes to an end.  An iteration that
    returns clears the running flag exactly when it executes STOP, a byte
    of the default case (unknown opcode), or DIV with a zero divisor, and
    leaves the flag as it was otherwise.  After such an iteration the loop
    is left at once: when [vm_run] returns with the flag clear, it returns
    straight from an iteration of that kind.  When no such iteration is
    executed the loop is left because the instruction pointer has reached
    the length of the code segment, and [vm_run] returns with the running
    flag still set. *)
Theorem vm_run_exit vm io :
  vm_run vm io <> OutOfFuel /\
  (forall vm' io',
     vm_run vm io = Ret tt vm' io' ->
     exists ip,
       vm_loop (Z.to_nat (CodeSegment.length (code_segment vm))) 0
         (started vm) io = Ret ip vm' io' /\
       code_segment vm' = code_segment vm /\
       ((running vm' = true /\
         CodeSegment.length (code_segment vm) <= ip) \/
        (running vm' = false /\
         exists ipl vml iol op,
           running vml = true /\
           code_segment vml = code_segment vm /\
           ipl < CodeSegment.length (code_segment vm) /\
           code_at (code_segment vm) ipl = Some op /\
           halting op vml = true /\
           vm_step ipl vml iol = Ret ip vm' io'))) /\
  (forall ip vm1 io1 op ip2 vm2 io2,
     code_at (code_segment vm1) ip = Some op ->
     vm_step ip vm1 io1 = Ret ip2 vm2 io2 ->
     running vm2 = if halting op vm1 then false else running vm1) /\
  (forall n ip vm1 io1 op ip2 vm2 io2,
     running vm1 = true ->
     ip < CodeSegment.length (code_segment vm1) ->
     code_at (code_segment vm1) ip = Some op ->
     halting op vm1 = true ->
     vm_step ip vm1 io1 = Ret ip2 vm2 io2 ->
     vm_loop (S n) ip vm1 io1 = Ret ip2 vm2 io2 /\ running vm2 = false) /\
  (forall n ip vm1 io1,
     running vm1 = true ->
     CodeSegment.length (code_segment vm1) <= ip ->
     vm_loop n ip vm1 io1 = Ret ip vm1 io1).
Proof.
  split; [apply vm_run_fuel|]. split; [|split; [|split]].
  - intros vm' io' Hr. unfold vm_run in Hr. unfold bind at 1 in Hr.
    cbn [set_running] in Hr. fold (started vm) in Hr. unfold bind, ret in Hr.
    destruct (vm_loop _ 0 (started vm) io) as [ip vm1 io1| | |] eqn:Hl;
      try discriminate.
    injection Hr as <- <-. exists ip. split; [reflexivity|].
    destruct (vm_loop_exit _ _ _ _ _ _ _ Hl) as (Hc & _ & _).
    simpl in Hc. split; [exact Hc|].
    exact (vm_loop_left _ _ _ _ _ _ _ Hl eq_refl).
  - intros ip vm1 io1 op ip2 vm2 io2. apply vm_step_flag.
  - intros n ip vm1 io1 op ip2 vm2 io2 Hr Hlt Hop Hh Hs.
    pose proof (vm_step_flag _ _ _ _ _ _ _ Hop Hs) as Hflag.
    rewrite Hh in Hflag. split; [|exact Hflag].
    simpl. rewrite Hr.
    destruct (Z.ltb_spec ip (CodeSegment.length (code_segment vm1))); [|lia].
    simpl andb. cbv iota. unfold bind. rewrite Hs.
    destruct n; simpl; rewrite Hflag; reflexivity.
  - intros n ip vm1 io1 Hr Hle.
    assert (H : (ip <? CodeSegment.length (code_segment vm1)) = false)
      by (apply Z.ltb_ge; exact Hle).
    destruct n; simpl; rewrite H, andb_false_r; reflexivity.
Qed.

Lemma vm_run_exit_witness :
  exists ip,
    vm_loop 1 0 (started (init_vm [OpCode_byte OP_NOP])) empty_io =
      Ret ip (started (init_vm [OpCode_byte OP_NOP])) empty_io /\
    1 <= ip.
Proof.
  destruct (vm_run_exit (init_vm [OpCode_byte OP_NOP]) empty_io)
    as (_ & H & _).
  destruct (H (started (init_vm [OpCode_byte OP_NOP])) empty_io)
    as (ip & Hl & _ & Hex).
  - vm_compute. reflexivity.
  - exists ip. split; [exact Hl|].
    destruct Hex as [[_ Hle] | [Hf _]]; [exact Hle | discriminate Hf].
Defined.

(** C7 as worded fails: the run of the one-byte program [NOP] returns with
    the running flag set. *)
Lemma run_exhausted_still_running :
  ~ claimed_stopped (init_vm [OpCode_byte OP_NOP]) empty_io.
Proof.
  intros H.
  specialize (H (started (init_vm [OpCode_byte OP_NOP])) empty_io).
  assert (Hr : vm_run (init_vm [OpCode_byte OP_NOP]) empty_io =
               Ret tt (started (init_vm [OpCode_byte OP_NOP])) empty_io)
    by (vm_compute; reflexivity).
  apply H in Hr. vm_compute in Hr. discriminate Hr.
Qed.

(** C8: a segment created with a positive initial capacity ([malloc]
    having returned a block) and written only by [code_segment_write]
    holds, after any number of appends that have returned, exactly the
    bytes appended, in order, with [length <= capacity].  The next append
    returns when there is room, or when the doubled capacity is a
    [size_t] and [realloc] returns a block; it then stores its byte at
    index [length], leaves every byte written before at its index, adds
    one to [length] and doubles [capacity] if the buffer was full (and
    leaves it otherwise).  In the other cases the program, which does not
    test what [malloc] and [realloc] return, stores outside the block.
    With an allocator that grants every request, an initial capacity and
    a number of appends of at most [2^62], every append returns. *)
Theorem code_segment_append_invariant c bs b seg0 io :
  0 < c ->
  (allocates io c = true ->
   (forall seg io',
      (code_segment_init c ;; code_segment_writes bs) seg0 io =
        Ret tt seg io' ->
      (CodeSegment.length seg = Z.of_nat (length bs) /\
       CodeSegment.length seg <= CodeSegment.capacity seg /\
       Z.of_nat (length (CodeSegment.code seg)) = CodeSegment.capacity seg /\
       (forall i x, bs !! i = Some x ->
                    CodeSegment.code seg !! i = Some (Some x))) /\
      (can_append io' seg ->
       exists seg',
         code_segment_write b seg io' = Ret tt seg' io' /\
         CodeSegment.length seg' = CodeSegment.length seg + 1 /\
         CodeSegment.length seg' <= CodeSegment.capacity seg' /\
         CodeSegment.code seg' !! length bs = Some (Some b) /\
         (forall i x, bs !! i = Some x ->
                      CodeSegment.code seg' !! i = Some (Some x)) /\
         (if CodeSegment.capacity seg <=? CodeSegment.length seg
          then CodeSegment.capacity seg' = CodeSegment.capacity seg * 2
          else CodeSegment.capacity seg' = CodeSegment.capacity seg)) /\
      (~ can_append io' seg ->
       code_segment_write b seg io' = Undefined)) /\
   (c <= 2 ^ 62 -> Z.of_nat (length bs) < 2 ^ 62 ->
    (forall n, allocates io n = true) ->
    exists seg,
      (code_segment_init c ;; code_segment_writes bs) seg0 io =
        Ret tt seg io /\
      can_append io seg)) /\
  (allocates io c = false ->
   (code_segment_init c ;; code_segment_writes (b :: bs)) seg0 io = Undefined).
Proof.
  intros Hc. split.
  - intros Hgc.
    destruct (code_segment_init_holds c seg0 io) as (seg1 & Hi & Hs1 & Hcap1);
      [lia | exact Hgc |].
    split.
    + intros seg io' Hrun. unfold bind in Hrun. rewrite Hi in Hrun.
      destruct (code_segment_writes_holds bs seg1 [] io seg io' Hs1) as
        (Hs & Hpos & ->); [lia | exact Hrun |].
      simpl app in Hs. pose proof Hs as (Hlenc & Hl & Hle & Hbs).
      destruct (code_segment_write_cases seg bs b io Hs Hpos) as (Hyes & Hno).
      split; [auto|]. split; [|exact Hno].
      intros Hcan.
      destruct (Hyes Hcan) as (seg' & Hw & Hs' & Hl' & Hcap').
      exists seg'. destruct Hs' as (_ & _ & Hle' & Hbs').
      split; [exact Hw|]. split; [exact Hl'|]. split; [exact Hle'|].
      split; [|split; [|exact Hcap']].
      * apply Hbs'. apply list_lookup_middle. reflexivity.
      * intros i x Hi'. apply Hbs'. apply lookup_app_l_Some. exact Hi'.
    + intros Hc62 Hn62 Hg.
      destruct (code_segment_writes_total c bs seg1 [] io Hs1) as (seg & Hr);
        [lia | simpl length; lia | exact Hc62 | simpl length; lia | exact Hg |].
      exists seg. split; [unfold bind; rewrite Hi; exact Hr|].
      destruct (code_segment_writes_holds bs seg1 [] io seg io Hs1) as
        ((_ & Hl & Hle & _) & Hpos & _); [lia | exact Hr |].
      simpl app in Hl. unfold can_append, Int.SIZE_MAX. rewrite Hg.
      change (2 ^ 62) with 4611686018427387904 in *.
      destruct (Z_lt_le_dec (CodeSegment.length seg) (CodeSegment.capacity seg));
        [left; assumption|right].
      split; [lia | reflexivity].
  - intros Hgc. unfold bind at 1. unfold code_segment_init, malloc.
    rewrite Hgc. simpl code_segment_writes. unfold bind at 1.
    unfold code_segment_write.
    cbn [CodeSegment.code CodeSegment.length CodeSegment.capacity].
    destruct (Z.leb_spec c 0); [lia|]. reflexivity.
Qed.

Lemma code_segment_append_invariant_witness :
  exists seg seg',
    (code_segment_init 2 ;; code_segment_writes [x01; x02]) blank_segment
      empty_io = Ret tt seg empty_io /\
    code_segment_write x03 seg empty_io = Ret tt seg' empty_io /\
    CodeSegment.capacity seg' = CodeSegment.capacity seg * 2 /\
    CodeSegment.code seg' !! 2%nat = Some (Some x03).
Proof.
  destruct (code_segment_append_invariant 2 [x01; x02] x03 blank_segment
              empty_io) as (Hyes & _).
  - lia.
  - destruct (Hyes eq_refl) as (Hinv & Htot).
    destruct Htot as (seg & Hrun & Hcan);
      [vm_compute; discriminate | vm_compute; reflexivity | reflexivity |].
    destruct (Hinv seg empty_io Hrun) as ((Hl & _) & Happ & _).
    destruct (Happ Hcan) as (seg' & Hw & _ & _ & Hb & _ & Hcap).
    exists seg, seg'. split; [exact Hrun|]. split; [exact Hw|].
    split; [|exact Hb].
    assert (Hseg : Ret tt seg empty_io =
                   (code_segment_init 2 ;; code_segment_writes [x01; x02])
                     blank_segment empty_io) by (symmetry; exact Hrun).
    vm_compute in Hseg. injection Hseg as ->. exact Hcap.
Defined.

(** C10: PUSH pushes its immediate byte zero-extended: whatever the byte,
    the value pushed is the number of the byte, between 0 and 255, never
    negative; the instruction pointer goes past the immediate. *)
Theorem push_zero_extends vm seg r ip imm l io :
  code_at seg ip = Some (OpCode_byte OP_PUSH) ->
  code_at seg (ip + 1) = Some imm ->
  vm_at vm seg r l ->
  Z.of_nat (length l) < STACK_MAX_SIZE ->
  exists vm',
    vm_step ip vm io = Ret (ip + 2) vm' io /\
    vm_at vm' seg r (Z.of_N (Byte.to_N imm) :: l) /\
    0 <= Z.of_N (Byte.to_N imm) <= 255.
Proof.
  intros Hop Himm Hat Hlt.
  destruct (push_step vm seg r ip imm l io Hop Himm Hat Hlt) as (vm' & Hs & Hat').
  exists vm'. split; [exact Hs|]. split; [exact Hat'|].
  apply of_byte_range.
Qed.

Lemma push_zero_extends_witness :
  exists vm',
    vm_step 0 (example_vm [OpCode_byte OP_PUSH; xff] []) empty_io =
      Ret 2 vm' empty_io /\
    vm_at vm' (assemble [OpCode_byte OP_PUSH; xff]) true [255].
Proof.
  destruct (push_zero_extends (example_vm [OpCode_byte OP_PUSH; xff] [])
              (assemble [OpCode_byte OP_PUSH; xff]) true 0 xff [] empty_io)
    as (vm' & Hs & Hat & _).
  - reflexivity.
  - reflexivity.
  - example_at.
  - reflexivity.
  - exists vm'. split; [exact Hs | exact Hat].
Defined.

(** * Further properties *)

(** ** Faults of the operand stack *)

Lemma stack_pop_empty s io :
  stack_holds s [] -> stack_pop s io = Exit 1 s (fprintf_stderr underflow_msg io).
Proof.
  intros (_ & Ht & _). unfold stack_pop, stack_isEmpty. rewrite Ht.
  reflexivity.
Qed.

Lemma stack_peek_empty s io :
  stack_holds s [] ->
  stack_peek s io = Exit 1 s (fprintf_stderr empty_stack_msg io).
Proof.
  intros (_ & Ht & _). unfold stack_peek. rewrite Ht. reflexivity.
Qed.

Lemma stack_push_full s l v io :
  stack_holds s l -> Z.of_nat (length l) = STACK_MAX_SIZE ->
  stack_push v s io = Exit 1 s (fprintf_stderr overflow_msg io).
Proof.
  intros Hs Hn. destruct (stack_holds_full s l Hs Hn) as (_ & _ & Hf).
  unfold stack_push. rewrite Hf. reflexivity.
Qed.

(** The engine at the [exit] inside a call on its stack: the stack is the
    one the call left, the rest is untouched. *)
Lemma vm_pop_empty vm seg r io :
  vm_at vm seg r [] ->
  exists vm',
    vm_pop vm io = Exit 1 vm' (fprintf_stderr underflow_msg io) /\
    vm_at vm' seg r [] /\ stack vm' = stack vm.
Proof.
  intros Hat. pose proof Hat as (_ & _ & Hs).
  exists (set_stack vm (stack vm)). unfold vm_pop, bind, on_stack.
  rewrite (stack_pop_empty _ io Hs).
  split; [reflexivity|]. split; [|reflexivity].
  eapply vm_at_set_stack; eassumption.
Qed.

Lemma vm_push_full vm seg r l v io :
  vm_at vm seg r l -> Z.of_nat (length l) = STACK_MAX_SIZE ->
  exists vm',
    vm_push v vm io = Exit 1 vm' (fprintf_stderr overflow_msg io) /\
    vm_at vm' seg r l /\ stack vm' = stack vm.
Proof.
  intros Hat Hn. pose proof Hat as (_ & _ & Hs).
  exists (set_stack vm (stack vm)). unfold vm_push, on_stack.
  rewrite (stack_push_full _ _ v io Hs Hn).
  split; [reflexivity|]. split; [|reflexivity].
  eapply vm_at_set_stack; eassumption.
Qed.

(** X1: every instruction that starts by popping (POP, SWAP, ADD, SUB, MUL,
    DIV, PRINT), executed on an empty stack, ends the process with status
    1 after writing the underflow message to the standard error stream;
    nothing is printed and the stack is as it was. *)
Theorem pop_on_empty_stack_exits o vm seg r ip io :
  pops_first o = true ->
  code_at seg ip = Some (OpCode_byte o) ->
  vm_at vm seg r [] ->
  exists vm',
    vm_step ip vm io = Exit 1 vm' (fprintf_stderr underflow_msg io) /\
    vm_at vm' seg r [] /\ stack vm' = stack vm.
Proof.
  intros Ho Hop Hat.
  destruct (vm_pop_empty vm seg r io Hat) as (vm' & Hp & Hat' & Hst).
  exists vm'. split; [|split; assumption].
  destruct o; try discriminate Ho; fetch_opcode Hat Hop; call Hp;
    reflexivity.
Qed.

Lemma pop_on_empty_stack_exits_witness :
  exists vm',
    vm_step 0 (example_vm [OpCode_byte OP_PRINT] []) empty_io =
      Exit 1 vm' (fprintf_stderr underflow_msg empty_io).
Proof.
  destruct (pop_on_empty_stack_exits OP_PRINT
              (example_vm [OpCode_byte OP_PRINT] [])
              (assemble [OpCode_byte OP_PRINT]) true 0 empty_io)
    as (vm' & Hs & _).
  - reflexivity.
  - reflexivity.
  - example_at.
  - exists vm'. exact Hs.
Defined.

(** X2: an instruction that takes two operands (SWAP, ADD, SUB, MUL, DIV),
    executed on a stack that holds a single value, pops that value and
    then ends the process with status 1 and the underflow message: at the
    exit the stack is empty, the value is not put back. *)
Theorem binary_on_single_value_exits o vm seg r ip v io :
  pops_twice o = true ->
  code_at seg ip = Some (OpCode_byte o) ->
  vm_at vm seg r [v] ->
  exists vm',
    vm_step ip vm io = Exit 1 vm' (fprintf_stderr underflow_msg io) /\
    vm_at vm' seg r [] /\
    stack_size (stack vm') = stack_size (stack vm) - 1.
Proof.
  intros Ho Hop Hat.
  destruct (vm_pop_at vm seg r [] v io Hat) as (vm1 & Hp1 & Hat1).
  destruct (vm_pop_empty vm1 seg r io Hat1) as (vm' & Hp & Hat' & Hst).
  exists vm'. split; [|split; [exact Hat'|]].
  - destruct o; try discriminate Ho; fetch_opcode Hat Hop; call Hp1;
      call Hp; reflexivity.
  - destruct Hat as (_ & _ & Hs). destruct Hat' as (_ & _ & Hs').
    rewrite (stack_holds_size _ _ Hs), (stack_holds_size _ _ Hs').
    reflexivity.
Qed.

Lemma binary_on_single_value_exits_witness :
  exists vm',
    vm_step 0 (example_vm [OpCode_byte OP_ADD] [5]) empty_io =
      Exit 1 vm' (fprintf_stderr underflow_msg empty_io) /\
    vm_at vm' (assemble [OpCode_byte OP_ADD]) true [].
Proof.
  destruct (binary_on_single_value_exits OP_ADD
              (example_vm [OpCode_byte OP_ADD] [5])
              (assemble [OpCode_byte OP_ADD]) true 0 5 empty_io)
    as (vm' & Hs & Hat & _).
  - reflexivity.
  - reflexivity.
  - example_at.
  - exists vm'. split; [exact Hs | exact Hat].
Defined.

(** ** DUP, SWAP, POP and PRINT *)

(** X3: DUP on a stack that holds [v] on top pushes a second [v] when the
    stack has room; on a full stack it ends the process with status 1 and
    the overflow message, the stack unchanged; on an empty stack it ends
    the process with status 1 and the message of [stack_peek]. *)
Theorem dup_step vm seg r ip l io :
  code_at seg ip = Some (OpCode_byte OP_DUP) ->
  vm_at vm seg r l ->
  match l with
  | [] =>
      exists vm',
        vm_step ip vm io = Exit 1 vm' (fprintf_stderr empty_stack_msg io) /\
        vm_at vm' seg r []
  | v :: l' =>
      if Z.of_nat (length l) <? STACK_MAX_SIZE then
        exists vm',
          vm_step ip vm io = Ret (ip + 1) vm' io /\
          vm_at vm' seg r (v :: v :: l')
      else
        exists vm',
          vm_step ip vm io = Exit 1 vm' (fprintf_stderr overflow_msg io) /\
          vm_at vm' seg r (v :: l')
  end.
Proof.
  intros Hop Hat. pose proof Hat as (_ & _ & Hs).
  destruct l as [|v l'].
  - exists (set_stack vm (stack vm)). split.
    + fetch_opcode Hat Hop. unfold bind at 1, on_stack.
      rewrite (stack_peek_empty _ io Hs). reflexivity.
    + eapply vm_at_set_stack; eassumption.
  - assert (Hpk : on_stack stack_peek vm io =
                  Ret v (set_stack vm (stack vm)) io).
    { unfold on_stack. rewrite (stack_peek_holds _ _ _ io Hs). reflexivity. }
    assert (Hat1 : vm_at (set_stack vm (stack vm)) seg r (v :: l'))
      by (eapply vm_at_set_stack; eassumption).
    destruct (Z.ltb_spec (Z.of_nat (length (v :: l'))) STACK_MAX_SIZE)
      as [Hlt|Hge].
    + destruct (vm_push_at _ _ _ _ v io Hat1 Hlt) as (vm' & Hp & Hat').
      exists vm'. split; [|exact Hat'].
      fetch_opcode Hat Hop. call Hpk. call Hp. reflexivity.
    + assert (Hn : Z.of_nat (length (v :: l')) = STACK_MAX_SIZE)
        by (destruct Hs as (_ & _ & Hl & _); lia).
      destruct (vm_push_full _ _ _ _ v io Hat1 Hn) as (vm' & Hp & Hat' & _).
      exists vm'. split; [|exact Hat'].
      fetch_opcode Hat Hop. call Hpk. call Hp. reflexivity.
Qed.

Lemma dup_step_witness :
  exists vm',
    vm_step 0 (example_vm [OpCode_byte OP_DUP] [4; 6]) empty_io =
      Ret 1 vm' empty_io /\
    vm_at vm' (assemble [OpCode_byte OP_DUP]) true [4; 4; 6].
Proof.
  pose proof (dup_step (example_vm [OpCode_byte OP_DUP] [4; 6])
                (assemble [OpCode_byte OP_DUP]) true 0 [4; 6] empty_io) as H.
  apply H; [reflexivity | example_at].
Defined.

Lemma swap_step_at vm seg r ip x y l io :
  code_at seg ip = Some (OpCode_byte OP_SWAP) ->
  vm_at vm seg r (x :: y :: l) ->
  Int.in_int32 x -> Int.in_int32 y ->
  exists vm',
    vm_step ip vm io = Ret (ip + 1) vm' io /\
    vm_at vm' seg r (y :: x :: l).
Proof.
  intros Hop Hat Hx Hy.
  pose proof (vm_at_room2 _ _ _ _ _ _ Hat) as Hlt.
  destruct (vm_pop_at _ _ _ _ _ io Hat) as (vm0 & Hp0 & Hat0).
  destruct (vm_pop_at _ _ _ _ _ io Hat0) as (vm1 & Hp1 & Hat1).
  destruct (vm_push_at _ _ _ _ x io Hat1 Hlt) as (vm2 & Hp2 & Hat2).
  destruct (vm_push_at _ _ _ _ y io Hat2) as (vm3 & Hp3 & Hat3).
  { destruct Hat as (_ & _ & _ & _ & Hl & _). simpl length in *. lia. }
  exists vm3. split; [|exact Hat3].
  fetch_opcode Hat Hop. call Hp0. call Hp1.
  rewrite !int32_pop by assumption. call Hp2. call Hp3. reflexivity.
Qed.

(** X4: SWAP exchanges the two values on top of the stack and leaves the
    rest; two SWAPs in a row give back the stack they started from. *)
Theorem swap_exchanges_top_two vm seg r ip x y l io :
  code_at seg ip = Some (OpCode_byte OP_SWAP) ->
  vm_at vm seg r (x :: y :: l) ->
  Int.in_int32 x -> Int.in_int32 y ->
  exists vm',
    vm_step ip vm io = Ret (ip + 1) vm' io /\
    vm_at vm' seg r (y :: x :: l) /\
    (code_at seg (ip + 1) = Some (OpCode_byte OP_SWAP) ->
     exists vm'',
       vm_step (ip + 1) vm' io = Ret (ip + 2) vm'' io /\
       vm_at vm'' seg r (x :: y :: l)).
Proof.
  intros Hop Hat Hx Hy.
  destruct (swap_step_at vm seg r ip x y l io Hop Hat Hx Hy)
    as (vm' & Hs & Hat').
  exists vm'. split; [exact Hs|]. split; [exact Hat'|].
  intros Hop2.
  destruct (swap_step_at vm' seg r (ip + 1) y x l io Hop2 Hat' Hy Hx)
    as (vm'' & Hs2 & Hat'').
  exists vm''. replace (ip + 2) with (ip + 1 + 1) by lia.
  split; [exact Hs2 | exact Hat''].
Qed.

Lemma swap_exchanges_top_two_witness :
  exists vm',
    vm_step 0 (example_vm [OpCode_byte OP_SWAP] [1; 2; 3]) empty_io =
      Ret 1 vm' empty_io /\
    vm_at vm' (assemble [OpCode_byte OP_SWAP]) true [2; 1; 3].
Proof.
  destruct (swap_exchanges_top_two (example_vm [OpCode_byte OP_SWAP] [1; 2; 3])
              (assemble [OpCode_byte OP_SWAP]) true 0 1 2 [3] empty_io)
    as (vm' & Hs & Hat & _).
  - reflexivity.
  - example_at.
  - unfold Int.in_int32, Int.INT32_MIN, Int.INT32_MAX. lia.
  - unfold Int.in_int32, Int.INT32_MIN, Int.INT32_MAX. lia.
  - exists vm'. split; [exact Hs | exact Hat].
Defined.

(** X5: POP removes the value on top of the stack and writes nothing;
    PRINT removes it and appends its decimal form, with a minus sign when
    it is negative, and a line feed to the standard output; neither
    touches the values below, the running flag or the standard error
    stream. *)
Theorem pop_and_print_step o vm seg r ip v l io :
  o = OP_POP \/ o = OP_PRINT ->
  code_at seg ip = Some (OpCode_byte o) ->
  vm_at vm seg r (v :: l) ->
  Int.in_int32 v ->
  exists vm',
    vm_step ip vm io =
      Ret (ip + 1) vm'
        (match o with
         | OP_PRINT => printf (String.append (fmt_d v) LF) io
         | _ => io
         end) /\
    vm_at vm' seg r l /\
    (v < 0 ->
     exists digits, fmt_d v = String "-"%char digits /\ fmt_d (- v) = digits).
Proof.
  intros Ho Hop Hat Hv.
  destruct (vm_pop_at _ _ _ _ _ io Hat) as (vm' & Hp & Hat').
  exists vm'. split; [|split; [exact Hat'|]].
  - destruct Ho as [-> | ->]; fetch_opcode Hat Hop; call Hp.
    + reflexivity.
    + rewrite int32_pop by assumption. reflexivity.
  - intros Hneg. destruct v as [|p|p]; try lia.
    eexists. split; reflexivity.
Qed.

Lemma pop_and_print_step_witness :
  exists vm',
    vm_step 0 (example_vm [OpCode_byte OP_PRINT] [-42; 1]) empty_io =
      Ret 1 vm' (printf (String.append "-42" LF) empty_io) /\
    vm_at vm' (assemble [OpCode_byte OP_PRINT]) true [1].
Proof.
  destruct (pop_and_print_step OP_PRINT
              (example_vm [OpCode_byte OP_PRINT] [-42; 1])
              (assemble [OpCode_byte OP_PRINT]) true 0 (-42) [1] empty_io)
    as (vm' & Hs & Hat & _).
  - right. reflexivity.
  - reflexivity.
  - example_at.
  - unfold Int.in_int32, Int.INT32_MIN, Int.INT32_MAX. lia.
  - exists vm'. split; [exact Hs | exact Hat].
Defined.

(** ** Bytes without a case, instruction sizes, STOP *)

Lemma handled_range op :
  handled op = false <->
  (9 <= Int.of_byte op <= 15 \/ 18 <= Int.of_byte op).
Proof.
  destruct op; vm_compute; split;
    try (intros H; discriminate H);
    try (intros [[H1 H2] | H]; exfalso; auto; fail);
    try (intros _; right; discriminate);
    try (intros _; left; split; discriminate);
    try reflexivity.
Qed.

(** X6: a byte is handled by the default case exactly when its number is
    9 to 15 (JMP, JZ, JNZ, CALL, RET, LOAD, STORE) or 18 and above.
    Executing such a byte writes the unknown-opcode message with that
    number in decimal to the standard error stream and clears the running
    flag; the stack is untouched, no operand byte is consumed, and the
    loop is left at the next index: the bytes that follow are not
    executed. *)
Theorem unhandled_byte_stops op vm seg r ip l io :
  code_at seg ip = Some op ->
  (9 <= Int.of_byte op <= 15 \/ 18 <= Int.of_byte op) ->
  vm_at vm seg r l ->
  exists vm',
    vm_step ip vm io =
      Ret (ip + 1) vm'
        (fprintf_stderr
           (String.append "Unknown opcode: "
              (String.append (fmt_d (Z.of_N (Byte.to_N op))) LF)) io) /\
    vm_at vm' seg false l /\
    stack vm' = stack vm /\
    forall n io', vm_loop n (ip + 1) vm' io' = Ret (ip + 1) vm' io'.
Proof.
  intros Hop Hrange Hat.
  apply handled_range in Hrange. unfold handled in Hrange.
  destruct (default_step vm seg r ip op l io Hop) as (vm' & Hs & Hat' & Hst);
    [|exact Hat|].
  { destruct (OpCode_of_byte op) as [[]|]; try discriminate Hrange; exact I. }
  exists vm'. split; [exact Hs|]. split; [exact Hat'|]. split; [exact Hst|].
  intros n io'. apply (vm_loop_stopped _ _ _ _ _ _ Hat').
Qed.

Lemma unhandled_byte_stops_witness :
  exists vm',
    vm_step 0 (example_vm [xc8; OpCode_byte OP_PRINT] [3]) empty_io =
      Ret 1 vm'
        (fprintf_stderr (String.append "Unknown opcode: "
                           (String.append "200" LF)) empty_io) /\
    vm_at vm' (assemble [xc8; OpCode_byte OP_PRINT]) false [3].
Proof.
  destruct (unhandled_byte_stops xc8
              (example_vm [xc8; OpCode_byte OP_PRINT] [3])
              (assemble [xc8; OpCode_byte OP_PRINT]) true 0 [3] empty_io)
    as (vm' & Hs & Hat & _).
  - reflexivity.
  - right. vm_compute. discriminate.
  - example_at.
  - exists vm'. split; [exact Hs | exact Hat].
Defined.

Lemma steps_vm_step_size ip op vm io :
  code_at (code_segment vm) ip = Some op ->
  match vm_step ip vm io with
  | Ret ip' _ _ => ip' = ip + instr_size op
  | _ => True
  end.
Proof.
  intros Hop. unfold vm_step. unfold bind at 1, fetch. rewrite Hop.
  cbv beta iota zeta. unfold instr_size.
  assert (Hk : forall (m : M VM Z) (Q : Z -> Prop),
             steps m Q ->
             match m vm io with Ret ip' _ _ => Q ip' | _ => True end).
  { intros m Q Hm. specialize (Hm vm io). destruct (m vm io); tauto. }
  destruct (OpCode_of_byte op) as [[]|];
    apply (Hk _ (fun ip' => ip' = ip + _)); steps_tac.
Qed.

(** X7: an iteration that returns has moved the instruction pointer by the
    size of the instruction it executed: two bytes for PUSH (opcode and
    immediate), one byte for every other opcode and for every byte of the
    default case; the immediates that JMP, JZ, JNZ, CALL, LOAD and STORE
    would take are not skipped. *)
Theorem step_advances_by_instr_size ip op vm io ip' vm' io' :
  code_at (code_segment vm) ip = Some op ->
  vm_step ip vm io = Ret ip' vm' io' ->
  ip' = ip + instr_size op /\
  (instr_size op = 2 <-> op = OpCode_byte OP_PUSH) /\
  (instr_size op = 1 <-> op <> OpCode_byte OP_PUSH).
Proof.
  intros Hop Hs. pose proof (steps_vm_step_size ip op vm io Hop) as H.
  rewrite Hs in H. split; [exact H|].
  clear. destruct op; cbv [instr_size OpCode_of_byte OpCode_byte];
    split; split; intros H;
    try discriminate H; try discriminate; try reflexivity;
    try (exfalso; apply H; reflexivity).
Qed.

Lemma step_advances_by_instr_size_witness :
  exists vm',
    vm_step 0 (example_vm [OpCode_byte OP_PUSH; x07] []) empty_io =
      Ret (0 + instr_size (OpCode_byte OP_PUSH)) vm' empty_io.
Proof.
  assert (Hs : exists vm', vm_step 0 (example_vm [OpCode_byte OP_PUSH; x07] [])
                             empty_io = Ret 2 vm' empty_io)
    by (eexists; vm_compute; reflexivity).
  destruct Hs as (vm' & Hs). exists vm'.
  destruct (step_advances_by_instr_size 0 (OpCode_byte OP_PUSH)
              (example_vm [OpCode_byte OP_PUSH; x07] []) empty_io 2 vm'
              empty_io eq_refl Hs) as (Hip & _).
  rewrite <- Hip. exact Hs.
Defined.

(** ** What the engine keeps and what it never does *)

Lemma string_append_nil_r s : String.append s "" = s.
Proof. induction s as [|c s IH]; simpl; [reflexivity | rewrite IH; reflexivity]. Qed.

Lemma string_append_assoc s t u :
  String.append (String.append s t) u = String.append s (String.append t u).
Proof. induction s as [|c s IH]; simpl; [reflexivity | rewrite IH; reflexivity]. Qed.

Lemma extends_refl io : extends io io.
Proof. exists ""%string, ""%string. rewrite !string_append_nil_r. auto. Qed.

Lemma extends_trans io1 io2 io3 :
  extends io1 io2 -> extends io2 io3 -> extends io1 io3.
Proof.
  intros (o1 & e1 & Ho1 & He1) (o2 & e2 & Ho2 & He2).
  exists (String.append o1 o2), (String.append e1 e2).
  rewrite Ho2, He2, Ho1, He1, !string_append_assoc. auto.
Qed.

Lemma extends_printf msg io : extends io (printf msg io).
Proof. exists msg, ""%string. simpl. rewrite string_append_nil_r. auto. Qed.

Lemma extends_fprintf msg io : extends io (fprintf_stderr msg io).
Proof. exists ""%string, msg. simpl. rewrite string_append_nil_r. auto. Qed.

Lemma stack_holds_inv s l : stack_holds s l -> stack_inv s.
Proof.
  intros (Hd & Ht & Hl & _). split; [exact Hd|].
  unfold STACK_MAX_SIZE in *. lia.
Qed.

Lemma guarded_weaken {A} (U : Prop) (m : M VM A) : guarded False m -> guarded U m.
Proof.
  intros Hm vm io Hinv. specialize (Hm vm io Hinv).
  destruct (m vm io); auto. contradiction.
Qed.

Lemma guarded_ret {A} U (a : A) : guarded U (ret a).
Proof. intros vm io Hinv. simpl. split; [exact Hinv | apply extends_refl]. Qed.

Lemma guarded_bind {A B} U (m : M VM A) (k : A -> M VM B) :
  guarded U m -> (forall a, guarded U (k a)) -> guarded U (bind m k).
Proof.
  intros Hm Hk vm io Hinv. unfold bind. specialize (Hm vm io Hinv).
  destruct (m vm io) as [a vm1 io1| | |]; auto.
  destruct Hm as (Hinv1 & Hext1). specialize (Hk a vm1 io1 Hinv1).
  destruct (k a vm1 io1) as [b vm2 io2|n vm2 io2| |]; auto.
  - destruct Hk as (Hinv2 & Hext2). split; [exact Hinv2|].
    eapply extends_trans; eassumption.
  - destruct Hk as (Hn & Hinv2 & io3 & msg & Hext & Hmsg & Hio).
    split; [exact Hn|]. split; [exact Hinv2|]. exists io3, msg.
    split; [eapply extends_trans; eassumption|]. auto.
Qed.

(** A call on the stack that keeps the invariant, exits only with a fatal
    message and never reads or writes outside the array. *)
Lemma guarded_on_stack {A} (m : M Stack A) :
  (forall s io, stack_inv s ->
     match m s io with
     | Ret _ s' io' => stack_inv s' /\ io' = io
     | Exit n s' io' =>
         n = 1 /\ s' = s /\ exists msg, is_fatal_msg msg /\
                                        io' = fprintf_stderr msg io
     | _ => False
     end) ->
  guarded False (on_stack m).
Proof.
  intros Hm vm io Hinv. unfold on_stack. specialize (Hm (stack vm) io Hinv).
  destruct (m (stack vm) io) as [a s' io'|n s' io'| |]; try contradiction.
  - destruct Hm as (Hinv' & ->). split; [exact Hinv' | apply extends_refl].
  - destruct Hm as (Hn & -> & msg & Hmsg & ->).
    split; [exact Hn|]. split; [exact Hinv|].
    exists io, msg. split; [apply extends_refl | auto].
Qed.

Lemma stack_push_inv v s io :
  stack_inv s ->
  match stack_push v s io with
  | Ret _ s' io' => stack_inv s' /\ io' = io
  | Exit n s' io' =>
      n = 1 /\ s' = s /\ exists msg, is_fatal_msg msg /\
                                     io' = fprintf_stderr msg io
  | _ => False
  end.
Proof.
  intros (Hd & Ht). unfold stack_push, stack_isFull, in_data, STACK_MAX_SIZE in *.
  destruct (Z.leb_spec (1024 - 1) (top s)).
  - split; [reflexivity|]. split; [reflexivity|].
    exists overflow_msg. split; [left; reflexivity | reflexivity].
  - destruct (Z.leb_spec 0 (top s + 1)); [|lia].
    destruct (Z.ltb_spec (top s + 1) 1024); [|lia].
    simpl andb. cbv iota. split; [|reflexivity].
    unfold stack_inv, STACK_MAX_SIZE.
    split; simpl; [rewrite length_insert; exact Hd | lia].
Qed.

Lemma stack_pop_inv s io :
  stack_inv s ->
  match stack_pop s io with
  | Ret _ s' io' => stack_inv s' /\ io' = io
  | Exit n s' io' =>
      n = 1 /\ s' = s /\ exists msg, is_fatal_msg msg /\
                                     io' = fprintf_stderr msg io
  | _ => False
  end.
Proof.
  intros (Hd & Ht). unfold stack_pop, stack_isEmpty, in_data, STACK_MAX_SIZE in *.
  destruct (Z.eqb_spec (top s) (-1)).
  - split; [reflexivity|]. split; [reflexivity|].
    exists underflow_msg. split; [right; left; reflexivity | reflexivity].
  - destruct (Z.leb_spec 0 (top s)); [|lia].
    destruct (Z.ltb_spec (top s) 1024); [|lia].
    simpl andb. cbv iota.
    destruct (lookup_lt_is_Some_2 (data s) (Z.to_nat (top s))) as (v & Hv);
      [lia|].
    rewrite Hv. split; [|reflexivity]. unfold stack_inv, STACK_MAX_SIZE.
    split; simpl; [exact Hd | lia].
Qed.

Lemma stack_peek_inv s io :
  stack_inv s ->
  match stack_peek s io with
  | Ret _ s' io' => stack_inv s' /\ io' = io
  | Exit n s' io' =>
      n = 1 /\ s' = s /\ exists msg, is_fatal_msg msg /\
                                     io' = fprintf_stderr msg io
  | _ => False
  end.
Proof.
  intros (Hd & Ht). unfold stack_peek, in_data, STACK_MAX_SIZE in *.
  destruct (Z.ltb_spec (top s) 0).
  - split; [reflexivity|]. split; [reflexivity|].
    exists empty_stack_msg. split; [right; right; reflexivity | reflexivity].
  - destruct (Z.leb_spec 0 (top s)); [|lia].
    destruct (Z.ltb_spec (top s) 1024); [|lia].
    simpl andb. cbv iota.
    destruct (lookup_lt_is_Some_2 (data s) (Z.to_nat (top s))) as (v & Hv);
      [lia|].
    rewrite Hv. split; [|reflexivity]. unfold stack_inv, STACK_MAX_SIZE.
    split; [exact Hd | lia].
Qed.

Lemma guarded_vm_push U v : guarded U (vm_push v).
Proof.
  apply guarded_weaken, guarded_on_stack. intros. apply stack_push_inv.
  assumption.
Qed.

Lemma guarded_peek U : guarded U (on_stack stack_peek).
Proof.
  apply guarded_weaken, guarded_on_stack. intros. apply stack_peek_inv.
  assumption.
Qed.

Lemma guarded_vm_pop U : guarded U vm_pop.
Proof.
  unfold vm_pop. apply guarded_bind.
  - apply guarded_weaken, guarded_on_stack. intros. apply stack_pop_inv.
    assumption.
  - intros a. apply guarded_ret.
Qed.

Lemma guarded_set_running U r : guarded U (set_running r).
Proof. intros vm io Hinv. simpl. split; [exact Hinv | apply extends_refl]. Qed.

Lemma guarded_put_stdout U msg : guarded U (put_stdout msg).
Proof. intros vm io Hinv. simpl. split; [exact Hinv | apply extends_printf]. Qed.

Lemma guarded_put_stderr U msg : guarded U (put_stderr msg).
Proof. intros vm io Hinv. simpl. split; [exact Hinv | apply extends_fprintf]. Qed.

Lemma guarded_fetch ip : guarded True (fetch ip).
Proof.
  intros vm io Hinv. unfold fetch.
  destruct (code_at (code_segment vm) ip); simpl; auto using extends_refl.
Qed.

Lemma guarded_int32_div a b : guarded True (int32_div a b).
Proof.
  intros vm io Hinv. unfold int32_div.
  destruct ((a =? Int.INT32_MIN) && (b =? -1)); simpl; auto using extends_refl.
Qed.

Ltac guarded_tac :=
  repeat first
    [ apply guarded_ret
    | apply guarded_vm_pop
    | apply guarded_vm_push
    | apply guarded_peek
    | apply guarded_set_running
    | apply guarded_put_stdout
    | apply guarded_put_stderr
    | apply guarded_fetch
    | apply guarded_int32_div
    | apply guarded_bind; [|intros ?; cbv zeta]
    | match goal with |- guarded _ (if ?c then _ else _) => destruct c end ].

Lemma guarded_vm_step ip : guarded True (vm_step ip).
Proof.
  unfold vm_step. apply guarded_bind; [apply guarded_fetch|].
  intros op. cbv zeta. destruct (OpCode_of_byte op) as [[]|]; guarded_tac.
Qed.

Lemma guarded_vm_loop fuel : forall ip, guarded True (vm_loop fuel ip).
Proof.
  induction fuel as [|n IH]; intros ip vm io Hinv; simpl.
  - destruct (running vm && (ip <? CodeSegment.length (code_segment vm)));
      [exact I | split; [exact Hinv | apply extends_refl]].
  - destruct (running vm && (ip <? CodeSegment.length (code_segment vm)));
      [|split; [exact Hinv | apply extends_refl]].
    apply (guarded_bind True (vm_step ip) (vm_loop n)); [|exact IH|exact Hinv].
    apply guarded_vm_step.
Qed.

Lemma guarded_vm_run : guarded True vm_run.
Proof.
  intros vm io Hinv. unfold vm_run.
  apply (guarded_bind True (set_running true)); [| |exact Hinv].
  - apply guarded_set_running.
  - intros _. apply guarded_bind; [apply guarded_vm_loop | intros; apply guarded_ret].
Qed.

Lemma guarded_result {A} U (m : M VM A) vm io :
  guarded U m -> stack_inv (stack vm) ->
  match m vm io with
  | Ret _ vm' _ | Exit _ vm' _ => stack_inv (stack vm')
  | Undefined => U
  | OutOfFuel => True
  end.
Proof.
  intros Hm Hinv. specialize (Hm vm io Hinv).
  destruct (m vm io); tauto.
Qed.

Lemma OpCode_of_byte_inv op o : OpCode_of_byte op = Some o -> op = OpCode_byte o.
Proof. destruct op; simpl; intros H; try discriminate H; injection H as <-; reflexivity. Qed.

Lemma guarded_in_bounds {A} (U P : Prop) (m : M VM A) vm io :
  guarded U m -> stack_inv (stack vm) -> (U -> P) ->
  m vm io <> OutOfFuel ->
  match m vm io with
  | Ret _ vm' _ | Exit _ vm' _ => stack_inv (stack vm')
  | Undefined => P
  | OutOfFuel => False
  end.
Proof.
  intros Hm Hinv HU Hf. pose proof (guarded_result U m vm io Hm Hinv) as Hr.
  destruct (m vm io); auto.
Qed.

Lemma guarded_int32_div_exact a b :
  guarded (a = Int.INT32_MIN /\ b = -1) (int32_div a b).
Proof.
  intros vm io Hinv. unfold int32_div.
  destruct (Z.eqb_spec a Int.INT32_MIN); destruct (Z.eqb_spec b (-1));
    simpl; auto using extends_refl.
Qed.

(** X8: the engine never indexes the stack array outside its bounds.  From
    a stack that satisfies the invariant ([top] between -1 and 1023), an
    iteration whose opcode byte, and immediate byte for PUSH, have been
    written either returns or ends the process, with the invariant still
    true, or it is a DIV that has popped its two operands from inside the
    array and found the dividend -2147483648 and the divisor -1, the one
    quotient that is not an [int32_t]: nothing else is without result. *)
Theorem vm_step_in_bounds ip op vm io :
  stack_inv (stack vm) ->
  code_at (code_segment vm) ip = Some op ->
  (op = OpCode_byte OP_PUSH -> is_Some (code_at (code_segment vm) (ip + 1))) ->
  match vm_step ip vm io with
  | Ret _ vm' _ | Exit _ vm' _ => stack_inv (stack vm')
  | Undefined =>
      op = OpCode_byte OP_DIV /\
      exists a b,
        top_value (stack vm) = Some b /\
        second_value (stack vm) = Some a /\
        Int.to_int32 a = Int.INT32_MIN /\ Int.to_int32 b = -1
  | OutOfFuel => False
  end.
Proof.
  intros Hinv Hop Himm.
  pose proof (vm_step_fuel ip vm io) as Hfuel.
  remember (vm_step ip vm io) as res eqn:Hres.
  unfold vm_step in Hres. unfold bind at 1 in Hres. unfold fetch at 1 in Hres.
  rewrite Hop in Hres. cbv beta iota zeta in Hres.
  destruct (OpCode_of_byte op) as [o|] eqn:Hdec.
  - pose proof (OpCode_of_byte_inv _ _ Hdec) as Hopo.
    destruct o;
      try solve [subst res; apply (guarded_in_bounds False);
                 [guarded_tac | exact Hinv | contradiction | exact Hfuel]].
    + (* PUSH *)
      destruct (Himm Hopo) as (imm & Hi).
      unfold bind at 1 in Hres. unfold fetch in Hres. rewrite Hi in Hres.
      subst res. apply (guarded_in_bounds False);
        [guarded_tac | exact Hinv | contradiction | exact Hfuel].
    + (* DIV: the two operands are popped from inside the array *)
      unfold bind at 1 in Hres.
      pose proof (guarded_vm_pop False vm io Hinv) as G1.
      destruct (vm_pop vm io) as [b0 vm1 io1|n1 vm1 io1| |] eqn:Hp1;
        [|subst res; apply G1|contradiction|subst res; congruence].
      apply vm_pop_ret in Hp1 as (b & Htb & -> & -> & ->).
      destruct G1 as (Hinv1 & _).
      unfold bind at 1 in Hres.
      pose proof (guarded_vm_pop False _ io Hinv1) as G2.
      destruct (vm_pop _ io) as [a0 vm2 io2|n2 vm2 io2| |] eqn:Hp2;
        [|subst res; apply G2|contradiction|subst res; congruence].
      apply vm_pop_ret in Hp2 as (a & Hta & -> & -> & ->).
      destruct G2 as (Hinv2 & _).
      assert (Hsecond : second_value (stack vm) = Some a) by exact Hta.
      destruct (Int.to_int32 (Int.to_uint32 b) =? 0).
      * subst res. exact Hinv2.
      * subst res.
        apply (guarded_in_bounds
                 (Int.to_int32 (Int.to_uint32 a) = Int.INT32_MIN /\
                  Int.to_int32 (Int.to_uint32 b) = -1));
          [|exact Hinv2| |exact Hfuel].
        -- apply guarded_bind; [apply guarded_int32_div_exact|].
           intros q. guarded_tac.
        -- intros (Ha & Hb). rewrite to_int32_to_uint32 in Ha, Hb.
           split; [exact Hopo|]. exists a, b. auto.
  - subst res. apply (guarded_in_bounds False);
      [guarded_tac | exact Hinv | contradiction | exact Hfuel].
Qed.

Lemma vm_step_in_bounds_witness :
  match vm_step 0 (example_vm [OpCode_byte OP_DUP] []) empty_io with
  | Ret _ vm' _ | Exit _ vm' _ => stack_inv (stack vm')
  | Undefined =>
      OpCode_byte OP_DUP = OpCode_byte OP_DIV /\
      exists a b,
        top_value (stack (example_vm [OpCode_byte OP_DUP] [])) = Some b /\
        second_value (stack (example_vm [OpCode_byte OP_DUP] [])) = Some a /\
        Int.to_int32 a = Int.INT32_MIN /\ Int.to_int32 b = -1
  | OutOfFuel => False
  end.
Proof.
  apply (vm_step_in_bounds 0 (OpCode_byte OP_DUP)
           (example_vm [OpCode_byte OP_DUP] []) empty_io).
  - split; vm_compute; [reflexivity | split; discriminate].
  - reflexivity.
  - intros H. discriminate H.
Defined.

(** X9: a run keeps the stack invariant and the code segment and only
    ever appends to the two streams: when [vm_run], started from a stack
    that satisfies the invariant, returns, [top] is still between -1 and
    1023, the segment is the one that was run, and the standard output
    and standard error streams are the ones before the run with text
    added at their ends. *)
Theorem vm_run_keeps_invariant vm io vm' io' :
  stack_inv (stack vm) ->
  vm_run vm io = Ret tt vm' io' ->
  stack_inv (stack vm') /\
  code_segment vm' = code_segment vm /\
  extends io io'.
Proof.
  intros Hinv Hr.
  pose proof (guarded_vm_run vm io Hinv) as Hg. rewrite Hr in Hg.
  destruct Hg as (Hinv' & Hext). split; [exact Hinv'|]. split; [|exact Hext].
  unfold vm_run in Hr. unfold bind at 1 in Hr. cbn [set_running] in Hr.
  unfold bind, ret in Hr.
  destruct (vm_loop _ 0 _ io) as [ip vm1 io1| | |] eqn:Hl; try discriminate.
  injection Hr as <- <-.
  destruct (vm_loop_exit _ _ _ _ _ _ _ Hl) as (Hc & _). exact Hc.
Qed.

Lemma vm_run_keeps_invariant_witness :
  exists vm' io',
    vm_run (init_vm sample_program) empty_io = Ret tt vm' io' /\
    stack_inv (stack vm') /\ extends empty_io io'.
Proof.
  assert (Hr : exists vm' io', vm_run (init_vm sample_program) empty_io =
                               Ret tt vm' io')
    by (eexists; eexists; vm_compute; reflexivity).
  destruct Hr as (vm' & io' & Hr). exists vm', io'.
  destruct (vm_run_keeps_invariant (init_vm sample_program) empty_io vm' io')
    as (Hinv & _ & Hext).
  - split; vm_compute; [reflexivity | split; discriminate].
  - exact Hr.
  - split; [exact Hr | split; [exact Hinv | exact Hext]].
Defined.

(** X10: no fatal fault is silent.  When a run, started from a stack that
    satisfies the invariant, ends the process, the exit status is 1 and
    the last text written is one of the three messages of the operand
    stack (overflow, underflow, empty stack), on the standard error
    stream; what the run had written before is still there, and the stack
    still satisfies the invariant. *)
Theorem vm_run_exit_is_loud vm io n vm' io' :
  stack_inv (stack vm) ->
  vm_run vm io = Exit n vm' io' ->
  n = 1 /\
  stack_inv (stack vm') /\
  exists io1 msg,
    extends io io1 /\ is_fatal_msg msg /\ io' = fprintf_stderr msg io1.
Proof.
  intros Hinv Hr.
  pose proof (guarded_vm_run vm io Hinv) as Hg. rewrite Hr in Hg. exact Hg.
Qed.

Lemma vm_run_exit_is_loud_witness :
  exists vm' io',
    vm_run (init_vm [OpCode_byte OP_PUSH; x07; OpCode_byte OP_PRINT;
                     OpCode_byte OP_PRINT]) empty_io = Exit 1 vm' io' /\
    exists io1 msg,
      extends empty_io io1 /\ is_fatal_msg msg /\ io' = fprintf_stderr msg io1.
Proof.
  assert (Hr : exists n vm' io',
             vm_run (init_vm [OpCode_byte OP_PUSH; x07; OpCode_byte OP_PRINT;
                              OpCode_byte OP_PRINT]) empty_io =
             Exit n vm' io')
    by (eexists; eexists; eexists; vm_compute; reflexivity).
  destruct Hr as (n & vm' & io' & Hr).
  destruct (vm_run_exit_is_loud
              (init_vm [OpCode_byte OP_PUSH; x07; OpCode_byte OP_PRINT;
                        OpCode_byte OP_PRINT]) empty_io n vm' io')
    as (Hn & _ & Hex).
  - split; vm_compute; [reflexivity | split; discriminate].
  - exact Hr.
  - subst n. exists vm', io'. split; [exact Hr | exact Hex].
Defined.

(** ** The call stack *)

Lemma call_stack_init_holds cs io :
  Z.of_nat (length (frames cs)) = CALL_STACK_MAX ->
  exists cs', call_stack_init cs io = Ret tt cs' io /\ cs_holds cs' [].
Proof.
  intros Hf. eexists. split; [reflexivity|].
  unfold cs_holds, CALL_STACK_MAX in *. simpl. auto with lia.
Qed.

Lemma call_stack_push_holds cs fs ra fp io :
  cs_holds cs fs -> Z.of_nat (length fs) < CALL_STACK_MAX ->
  exists cs',
    call_stack_push ra fp cs io = Ret tt cs' io /\
    cs_holds cs' ({| return_addr := ra; frame_pointer := fp |} :: fs).
Proof.
  intros (Hf & Hc & Hl & Htk) Hlt.
  unfold call_stack_push, in_frames, CALL_STACK_MAX in *. rewrite Hc.
  destruct (Z.leb_spec 256 (Z.of_nat (length fs))); [lia|].
  destruct (Z.leb_spec 0 (Z.of_nat (length fs))); [|lia].
  destruct (Z.ltb_spec (Z.of_nat (length fs)) 256); [|lia].
  simpl andb. cbv iota. eexists. split; [reflexivity|].
  rewrite Nat2Z.id. unfold cs_holds, CALL_STACK_MAX.
  split; [|split; [|split]]; simpl.
  - rewrite length_insert. exact Hf.
  - lia.
  - lia.
  - rewrite (take_S_r _ _ {| return_addr := ra; frame_pointer := fp |}).
    + rewrite take_insert_ge by lia. rewrite Htk, reverse_cons. reflexivity.
    + apply list_lookup_insert_eq. lia.
Qed.

Lemma call_stack_pop_holds cs fs f io :
  cs_holds cs (f :: fs) ->
  exists cs', call_stack_pop cs io = Ret f cs' io /\ cs_holds cs' fs.
Proof.
  intros (Hf & Hc & Hl & Htk). simpl length in *.
  unfold call_stack_pop, in_frames, CALL_STACK_MAX in *. rewrite Hc.
  destruct (Z.leb_spec (Z.of_nat (S (length fs))) 0); [lia|]. cbv zeta.
  replace (Z.of_nat (S (length fs)) - 1) with (Z.of_nat (length fs)) by lia.
  destruct (Z.leb_spec 0 (Z.of_nat (length fs))); [|lia].
  destruct (Z.ltb_spec (Z.of_nat (length fs)) 256); [|lia].
  simpl andb. cbv iota. rewrite Nat2Z.id.
  assert (Hlk : frames cs !! length fs = Some f).
  { rewrite <- (lookup_take_lt _ (S (length fs))) by lia.
    rewrite Htk, reverse_cons.
    rewrite lookup_app_r by (rewrite length_reverse; lia).
    rewrite length_reverse, Nat.sub_diag. reflexivity. }
  rewrite Hlk. eexists. split; [reflexivity|].
  unfold cs_holds, CALL_STACK_MAX. split; [|split; [|split]]; simpl;
    [exact Hf | reflexivity | lia |].
  apply (f_equal (take (length fs))) in Htk.
  rewrite take_take, reverse_cons in Htk.
  rewrite Nat.min_l in Htk by lia.
  rewrite take_app_length' in Htk by (rewrite length_reverse; reflexivity).
  exact Htk.
Qed.

Lemma call_stack_pushes_holds fs : forall cs base io,
  cs_holds cs base ->
  Z.of_nat (length base) + Z.of_nat (length fs) <= CALL_STACK_MAX ->
  exists cs',
    call_stack_pushes fs cs io = Ret tt cs' io /\
    cs_holds cs' (reverse fs ++ base).
Proof.
  induction fs as [|[ra fp] fs IH]; intros cs base io Hcs Hle; simpl.
  - exists cs. split; [reflexivity | exact Hcs].
  - simpl length in Hle.
    destruct (call_stack_push_holds cs base ra fp io Hcs) as (cs1 & Hp & Hcs1);
      [lia|].
    destruct (IH cs1 _ io Hcs1) as (cs' & Hr & Hcs');
      [simpl length; lia|].
    exists cs'. unfold bind. rewrite Hp. split; [exact Hr|].
    rewrite reverse_cons, <- app_assoc. exact Hcs'.
Qed.

Lemma call_stack_pops_holds fs : forall cs base io,
  cs_holds cs (fs ++ base) ->
  exists cs',
    call_stack_pops (length fs) cs io = Ret fs cs' io /\ cs_holds cs' base.
Proof.
  induction fs as [|f fs IH]; intros cs base io Hcs; simpl in *.
  - exists cs. split; [reflexivity | exact Hcs].
  - destruct (call_stack_pop_holds cs _ f io Hcs) as (cs1 & Hp & Hcs1).
    destruct (IH cs1 base io Hcs1) as (cs' & Hr & Hcs').
    exists cs'. unfold bind, ret. rewrite Hp, Hr.
    split; [reflexivity | exact Hcs'].
Qed.

(** X11: the call stack is last in, first out.  Frames pushed one after
    the other by [call_stack_push] onto a call stack with room for them
    come back from as many calls of [call_stack_pop] in the reverse order
    of their pushes, each with the return address and the frame pointer
    it was pushed with, and the call stack then holds what it held
    before. *)
Theorem call_stack_lifo fs cs base io :
  cs_holds cs base ->
  Z.of_nat (length base) + Z.of_nat (length fs) <= CALL_STACK_MAX ->
  exists cs1 cs2,
    call_stack_pushes fs cs io = Ret tt cs1 io /\
    count cs1 = count cs + Z.of_nat (length fs) /\
    call_stack_pops (length fs) cs1 io = Ret (reverse fs) cs2 io /\
    cs_holds cs2 base /\
    count cs2 = count cs.
Proof.
  intros Hcs Hle.
  destruct (call_stack_pushes_holds fs cs base io Hcs Hle) as (cs1 & Hp & Hcs1).
  destruct (call_stack_pops_holds (reverse fs) cs1 base io Hcs1)
    as (cs2 & Hq & Hcs2).
  rewrite length_reverse in Hq.
  exists cs1, cs2. split; [exact Hp|]. split; [|split; [exact Hq|split; [exact Hcs2|]]].
  - destruct Hcs as (_ & Hc & _). destruct Hcs1 as (_ & Hc1 & _).
    rewrite Hc1, Hc, length_app, length_reverse. lia.
  - destruct Hcs as (_ & Hc & _). destruct Hcs2 as (_ & Hc2 & _). congruence.
Qed.

Lemma call_stack_lifo_witness :
  exists cs1 cs2,
    call_stack_pushes [{| return_addr := 2; frame_pointer := 0 |};
                       {| return_addr := 9; frame_pointer := 3 |}]
      example_call_stack empty_io = Ret tt cs1 empty_io /\
    call_stack_pops 2 cs1 empty_io =
      Ret [{| return_addr := 9; frame_pointer := 3 |};
           {| return_addr := 2; frame_pointer := 0 |}] cs2 empty_io.
Proof.
  destruct (call_stack_lifo [{| return_addr := 2; frame_pointer := 0 |};
                             {| return_addr := 9; frame_pointer := 3 |}]
              example_call_stack [] empty_io)
    as (cs1 & cs2 & Hp & _ & Hq & _).
  - repeat split; vm_compute; congruence.
  - vm_compute. discriminate.
  - exists cs1, cs2. split; [exact Hp | exact Hq].
Defined.

(** X12: the faults of the call stack.  [call_stack_push] on a call stack
    that holds [CALL_STACK_MAX] frames, and [call_stack_pop] on one that
    holds none, end the process with status 1 after writing their message
    to the standard error stream, and leave the frames and the count as
    they were; of 257 pushes on an initialised call stack the first 256
    succeed and the last one faults. *)
Theorem call_stack_faults cs0 fs f ra fp io :
  Z.of_nat (length (frames cs0)) = CALL_STACK_MAX ->
  Z.of_nat (length fs) = CALL_STACK_MAX ->
  (forall cs, cs_holds cs fs ->
     call_stack_push ra fp cs io =
       Exit 1 cs (fprintf_stderr call_overflow_msg io)) /\
  (forall cs, cs_holds cs [] ->
     call_stack_pop cs io =
       Exit 1 cs (fprintf_stderr call_underflow_msg io)) /\
  exists cs1 cs',
    call_stack_init cs0 io = Ret tt cs1 io /\
    call_stack_pushes fs cs1 io = Ret tt cs' io /\
    frames cs' = fs /\ count cs' = CALL_STACK_MAX /\
    call_stack_pushes (fs ++ [f]) cs1 io =
      Exit 1 cs' (fprintf_stderr call_overflow_msg io).
Proof.
  intros Hf Hn.
  assert (Hfull : forall cs, cs_holds cs fs ->
            forall ra' fp', call_stack_push ra' fp' cs io =
              Exit 1 cs (fprintf_stderr call_overflow_msg io)).
  { intros cs (_ & Hc & _) ra' fp'. unfold call_stack_push. rewrite Hc, Hn.
    reflexivity. }
  split; [intros cs Hcs; apply Hfull, Hcs|]. split.
  - intros cs (_ & Hc & _). unfold call_stack_pop. rewrite Hc. reflexivity.
  - destruct (call_stack_init_holds cs0 io Hf) as (cs1 & Hi & Hcs1).
    destruct (call_stack_pushes_holds fs cs1 [] io Hcs1) as (cs' & Hp & Hcs');
      [simpl length; lia|].
    rewrite app_nil_r in Hcs'.
    exists cs1, cs'. split; [exact Hi|]. split; [exact Hp|].
    pose proof Hcs' as (Hlen & Hc & _ & Htk).
    rewrite length_reverse in Hc, Htk. rewrite reverse_involutive in Htk.
    split; [|split].
    + rewrite <- Htk. symmetry. apply take_ge. lia.
    + lia.
    + assert (Happ : forall l1 l2 cs io,
                call_stack_pushes (l1 ++ l2) cs io =
                (call_stack_pushes l1 ;; call_stack_pushes l2) cs io).
      { clear. induction l1 as [|[a b] l1 IH]; intros l2 cs io; simpl.
        - reflexivity.
        - unfold bind in *. destruct (call_stack_push a b cs io); auto. }
      rewrite Happ. unfold bind at 1. rewrite Hp. simpl. unfold bind.
      unfold call_stack_push. rewrite Hc, Hn. reflexivity.
Qed.

Lemma call_stack_faults_witness :
  call_stack_pop example_call_stack empty_io =
    Exit 1 example_call_stack (fprintf_stderr call_underflow_msg empty_io).
Proof.
  destruct (call_stack_faults example_call_stack
              (replicate 256 {| return_addr := 1; frame_pointer := 1 |})
              {| return_addr := 1; frame_pointer := 1 |} 0 0 empty_io)
    as (_ & Hpop & _).
  - vm_compute. reflexivity.
  - vm_compute. reflexivity.
  - apply Hpop. repeat split; vm_compute; congruence.
Defined.

(** ** Growth of the code segment *)

Lemma code_segment_writes_capacity c bs : forall seg pre io seg' io',
  segment_holds seg pre ->
  0 < CodeSegment.capacity seg ->
  capacity_after c (Z.of_nat (length pre)) (CodeSegment.capacity seg) ->
  code_segment_writes bs seg io = Ret tt seg' io' ->
  capacity_after c (Z.of_nat (length (pre ++ bs))) (CodeSegment.capacity seg').
Proof.
  induction bs as [|b bs IH]; intros seg pre io seg' io' Hs Hpos Hcap Hr;
    simpl in Hr.
  - injection Hr as <- <-. rewrite app_nil_r. exact Hcap.
  - unfold bind in Hr.
    destruct (code_segment_write_cases seg pre b io Hs Hpos) as (Hyes & Hno).
    destruct (can_append_dec io seg) as [Hcan|Hcan];
      [|rewrite (Hno Hcan) in Hr; discriminate].
    destruct (Hyes Hcan) as (seg1 & Hw & Hs1 & _ & Hc1). rewrite Hw in Hr.
    pose proof Hs as (_ & Hl & Hle & _).
    assert (Hcap1 : capacity_after c (Z.of_nat (length (pre ++ [b])))
                      (CodeSegment.capacity seg1)).
    { rewrite length_app. simpl length.
      destruct Hcap as ((k & Hk) & Hshape).
      destruct (Z.leb_spec (CodeSegment.capacity seg) (CodeSegment.length seg)).
      - split.
        + exists (S k). rewrite Hc1, Hk, Nat2Z.inj_succ, Z.pow_succ_r by lia.
          lia.
        + right. lia.
      - split; [exists k; congruence|]. lia. }
    assert (Hpos1 : 0 < CodeSegment.capacity seg1)
      by (destruct (CodeSegment.capacity seg <=? CodeSegment.length seg); lia).
    replace (pre ++ b :: bs) with ((pre ++ [b]) ++ bs)
      by (rewrite <- app_assoc; reflexivity).
    eapply IH; eassumption.
Qed.

(** X13: the capacity of a code segment grows by doubling only, and only
    when needed.  After [n] appends to a segment created with a positive
    capacity [c], the capacity is [c] times a power of two; it is still
    [c] if [n <= c], and otherwise it is at least [n] and at most
    [2 * (n - 1)]: the buffer is never more than twice the size of the
    code it holds. *)
Theorem code_segment_capacity_growth c bs seg0 io seg io' :
  0 < c ->
  (code_segment_init c ;; code_segment_writes bs) seg0 io = Ret tt seg io' ->
  capacity_after c (Z.of_nat (length bs)) (CodeSegment.capacity seg).
Proof.
  intros Hc Hrun.
  destruct (allocates io c) eqn:Hgc.
  - unfold bind in Hrun.
    destruct (code_segment_init_holds c seg0 io) as (seg1 & Hi & Hs1 & Hcap1);
      [lia | exact Hgc |].
    rewrite Hi in Hrun.
    apply (code_segment_writes_capacity c bs seg1 [] io seg io' Hs1);
      [lia | | exact Hrun].
    split; [exists 0%nat; simpl; lia|]. left. simpl length. lia.
  - (* [malloc] returned a null pointer: no append can have returned *)
    unfold bind at 1 in Hrun. unfold code_segment_init, malloc in Hrun.
    rewrite Hgc in Hrun. destruct bs as [|b bs].
    + simpl in Hrun. injection Hrun as <- <-. simpl.
      split; [exists 0%nat; simpl; lia|]. left. lia.
    + simpl code_segment_writes in Hrun. unfold bind at 1 in Hrun.
      unfold code_segment_write in Hrun.
      cbn [CodeSegment.code CodeSegment.length CodeSegment.capacity] in Hrun.
      destruct (Z.leb_spec c 0); [lia|]. discriminate Hrun.
Qed.

Lemma code_segment_capacity_growth_witness :
  capacity_after 2 5
    (CodeSegment.capacity
       {| CodeSegment.code :=
            [Some x01; Some x02; Some x03; Some x04; Some x05; None; None; None];
          CodeSegment.length := 5; CodeSegment.capacity := 8 |}).
Proof.
  apply (code_segment_capacity_growth 2 [x01; x02; x03; x04; x05]
           blank_segment empty_io _ empty_io); [lia|].
  vm_compute. reflexivity.
Defined.

(** X14: a segment created with capacity 0 cannot be appended to: doubling
    0 gives 0, the reallocated block is empty, and the first append
    stores its byte outside the block. *)
Theorem code_segment_zero_capacity b bs seg0 io :
  (code_segment_init 0 ;; code_segment_writes (b :: bs)) seg0 io = Undefined.
Proof.
  unfold bind at 1. unfold code_segment_init, malloc.
  simpl code_segment_writes. unfold bind at 1.
  unfold code_segment_write, realloc.
  cbn [CodeSegment.code CodeSegment.length CodeSegment.capacity].
  simpl Z.leb. cbv iota zeta.
  destruct (allocates io 0); destruct (allocates io (Int.to_size (0 * 2)));
    reflexivity.
Qed.

(** ** Sequences of stack operations that are not valid *)

(** X15: a sequence of pushes and pops that is not valid ends the process
    at its first invalid operation, with status 1.  The sequence splits
    into a valid part [pre], the operation [op] that is not valid after
    it, and a rest that is never reached; the process ends in the stack
    that [pre] has left (the one a run of [pre] alone returns, holding
    what the list discipline leaves), with nothing written but the
    message: the overflow message when [op] is a push, on a stack of
    1024 values, the underflow message when [op] is a pop, on an empty
    stack. *)
Theorem stack_run_invalid ops : forall s l io,
  stack_holds s l ->
  valid_ops (Z.of_nat (length l)) ops = false ->
  exists pre op post s',
    ops = pre ++ op :: post /\
    valid_ops (Z.of_nat (length l)) pre = true /\
    valid_ops (Z.of_nat (length (snd (lifo pre l)))) [op] = false /\
    stack_run pre s io = Ret (fst (lifo pre l)) s' io /\
    stack_holds s' (snd (lifo pre l)) /\
    stack_run ops s io =
      Exit 1 s'
        (fprintf_stderr
           (match op with OpPush _ => overflow_msg | OpPop => underflow_msg end)
           io).
Proof.
  induction ops as [|[v|] ops IH]; intros s l io Hs Hv; simpl in Hv.
  - discriminate Hv.
  - destruct (Z.ltb_spec (Z.of_nat (length l)) STACK_MAX_SIZE) as [Hlt|Hge].
    + simpl in Hv.
      destruct (stack_push_holds s l v io Hs Hlt) as (s1 & Hp & Hs1).
      destruct (IH s1 (v :: l) io Hs1)
        as (pre & op & post & s' & -> & Hvp & Hop & Hrp & Hs' & Hr).
      { simpl length. rewrite Nat2Z.inj_succ. unfold Z.succ. exact Hv. }
      exists (OpPush v :: pre), op, post, s'.
      split; [reflexivity|]. split.
      { simpl. apply andb_true_iff. split; [apply Z.ltb_lt; exact Hlt|].
        simpl length in Hvp. rewrite Nat2Z.inj_succ in Hvp. exact Hvp. }
      split; [exact Hop|].
      split; [simpl; unfold bind; rewrite Hp; exact Hrp|].
      split; [exact Hs'|].
      simpl. unfold bind. rewrite Hp. exact Hr.
    + assert (Hn : Z.of_nat (length l) = STACK_MAX_SIZE)
        by (destruct Hs as (_ & _ & Hl & _); lia).
      exists [], (OpPush v), ops, s.
      split; [reflexivity|]. split; [reflexivity|].
      split.
      { simpl. rewrite Hn. reflexivity. }
      split; [reflexivity|]. split; [exact Hs|].
      simpl. unfold bind. rewrite (stack_push_full s l v io Hs Hn).
      reflexivity.
  - destruct l as [|x l].
    + exists [], OpPop, ops, s.
      split; [reflexivity|]. split; [reflexivity|]. split; [reflexivity|].
      split; [reflexivity|]. split; [exact Hs|].
      simpl. unfold bind. rewrite (stack_pop_empty s io Hs). reflexivity.
    + simpl length in Hv. rewrite Nat2Z.inj_succ in Hv.
      destruct (Z.ltb_spec 0 (Z.succ (Z.of_nat (length l)))); [|lia].
      simpl in Hv.
      replace (Z.succ (Z.of_nat (length l)) - 1) with (Z.of_nat (length l))
        in Hv by lia.
      destruct (stack_pop_holds s l x io Hs) as (s1 & Hp & Hs1).
      destruct (IH s1 l io Hs1 Hv)
        as (pre & op & post & s' & -> & Hvp & Hop & Hrp & Hs' & Hr).
      exists (OpPop :: pre), op, post, s'.
      split; [reflexivity|]. split.
      { simpl valid_ops. simpl length. rewrite Nat2Z.inj_succ.
        replace (Z.succ (Z.of_nat (length l)) - 1) with (Z.of_nat (length l))
          by lia. exact Hvp. }
      simpl lifo. destruct (lifo pre l) as [ps rest] eqn:Hlifo. simpl in *.
      split; [exact Hop|].
      split; [unfold bind, ret; rewrite Hp, Hrp; reflexivity|].
      split; [exact Hs'|].
      unfold bind. rewrite Hp, Hr. reflexivity.
Qed.

Lemma stack_run_invalid_witness :
  exists s',
    stack_run [OpPush 1; OpPop; OpPop; OpPush 2]
      {| data := data zero_stack; top := -1 |} empty_io =
    Exit 1 s' (fprintf_stderr underflow_msg empty_io).
Proof.
  destruct (stack_run_invalid [OpPush 1; OpPop; OpPop; OpPush 2]
              {| data := data zero_stack; top := -1 |} [] empty_io)
    as (pre & op & post & s' & _ & _ & _ & _ & _ & Hr).
  - repeat split; vm_compute; congruence.
  - vm_compute. reflexivity.
  - destruct op as [v|].
    + exfalso. vm_compute in Hr. discriminate Hr.
    + exists s'. exact Hr.
Defined.

(** ** Runs of PUSH instructions *)

Lemma length_push_program imms :
  length (push_program imms) = (2 * length imms)%nat.
Proof. induction imms as [|b imms IH]; simpl; [reflexivity | rewrite IH; lia]. Qed.

Lemma push_program_lookup imms : forall i b,
  imms !! i = Some b ->
  push_program imms !! (2 * i)%nat = Some (OpCode_byte OP_PUSH) /\
  push_program imms !! S (2 * i) = Some b.
Proof.
  induction imms as [|a imms IH]; intros i b Hi; [discriminate Hi|].
  destruct i as [|i].
  - injection Hi as <-. split; reflexivity.
  - replace (2 * S i)%nat with (S (S (2 * i))) by lia.
    simpl in Hi |- *. apply IH, Hi.
Qed.

Lemma push_step_full vm seg r ip imm l io :
  code_at seg ip = Some (OpCode_byte OP_PUSH) ->
  code_at seg (ip + 1) = Some imm ->
  vm_at vm seg r l ->
  Z.of_nat (length l) = STACK_MAX_SIZE ->
  exists vm',
    vm_step ip vm io = Exit 1 vm' (fprintf_stderr overflow_msg io) /\
    vm_at vm' seg r l.
Proof.
  intros Hop Himm Hat Hn. fetch_opcode Hat Hop.
  call (fetch_at _ _ _ _ _ _ io Hat Himm).
  destruct (vm_push_full _ _ _ _ (Int.to_int32 (Int.of_byte imm)) io Hat Hn)
    as (vm' & Hp & Hat' & _).
  call Hp. exists vm'. split; [reflexivity | exact Hat'].
Qed.

Lemma vm_loop_at_end n ip vm io seg r l :
  vm_at vm seg r l -> CodeSegment.length seg <= ip ->
  vm_loop n ip vm io = Ret ip vm io.
Proof.
  intros (Hc & _) Hle.
  assert (H : (ip <? CodeSegment.length (code_segment vm)) = false)
    by (apply Z.ltb_ge; rewrite Hc; exact Hle).
  destruct n; simpl; rewrite H, andb_false_r; reflexivity.
Qed.

(** The loop over the instructions [PUSH b] for [b] in [rest], after
    those for [done]: each one takes one iteration. *)
Lemma push_loop seg io extra rest : forall done vm k,
  holds_program seg (push_program (done ++ rest ++ extra)) ->
  vm_at vm seg true (pushed done) ->
  Z.of_nat (length (done ++ rest)) <= STACK_MAX_SIZE ->
  exists vm',
    vm_loop (length rest + k) (Z.of_nat (2 * length done)) vm io =
      vm_loop k (Z.of_nat (2 * length (done ++ rest))) vm' io /\
    vm_at vm' seg true (pushed (done ++ rest)).
Proof.
  induction rest as [|b rest IH]; intros done vm k Hprog Hat Hle.
  - exists vm. rewrite app_nil_r. split; [reflexivity | exact Hat].
  - pose proof Hprog as (Hlen & Hcode).
    assert (Hb : (done ++ (b :: rest) ++ extra) !! length done = Some b)
      by (apply list_lookup_middle; reflexivity).
    destruct (push_program_lookup _ _ _ Hb) as (Hop & Himm).
    apply Hcode in Hop. apply Hcode in Himm.
    replace (Z.of_nat (S (2 * length done)))
      with (Z.of_nat (2 * length done) + 1) in Himm by lia.
    rewrite length_app in Hle. simpl length in Hle.
    destruct (push_step vm seg true _ b (pushed done) io Hop Himm Hat)
      as (vm1 & Hs & Hat1).
    { unfold pushed. rewrite length_reverse, length_map. lia. }
    assert (Hat1' : vm_at vm1 seg true (pushed (done ++ [b]))).
    { unfold pushed in *. rewrite map_app, reverse_app. exact Hat1. }
    destruct (IH (done ++ [b]) vm1 k) as (vm' & Hl & Hat').
    { rewrite <- app_assoc. exact Hprog. }
    { exact Hat1'. }
    { rewrite <- app_assoc, length_app. simpl length. lia. }
    rewrite <- app_assoc in Hl, Hat'. simpl app in Hl, Hat'.
    exists vm'. split; [|exact Hat'].
    simpl Nat.add.
    erewrite vm_loop_next; [|exact Hat| |exact Hs].
    + rewrite <- Hl. f_equal. rewrite length_app. simpl length. lia.
    + rewrite Hlen, length_push_program, !length_app. simpl length. lia.
Qed.

Lemma vm_loop_exits n ip vm io seg l st vm' io' :
  vm_at vm seg true l ->
  ip < CodeSegment.length seg ->
  vm_step ip vm io = Exit st vm' io' ->
  vm_loop (S n) ip vm io = Exit st vm' io'.
Proof.
  intros (Hc & Hr & _) Hlt Hstep. simpl. rewrite Hc, Hr.
  destruct (Z.ltb_spec ip (CodeSegment.length seg)); [|lia].
  simpl andb. cbv iota. unfold bind. rewrite Hstep. reflexivity.
Qed.

(** X16: the run of a program made of PUSH instructions only.  With at
    most 1024 of them the run returns with the immediates on the stack,
    the last one on top, nothing written, and the running flag still set
    (the code was exhausted); with more, the run ends the process at the
    1025th PUSH with status 1 and the overflow message, the stack holding
    the first 1024 immediates. *)
Theorem run_of_pushes imms vm0 seg io :
  Z.of_nat (length (data (stack vm0))) = STACK_MAX_SIZE ->
  holds_program seg (push_program imms) ->
  (Z.of_nat (length imms) <= STACK_MAX_SIZE ->
   exists vm',
     (vm_init seg ;; vm_run) vm0 io = Ret tt vm' io /\
     vm_at vm' seg true (pushed imms)) /\
  (STACK_MAX_SIZE < Z.of_nat (length imms) ->
   exists vm',
     (vm_init seg ;; vm_run) vm0 io =
       Exit 1 vm' (fprintf_stderr overflow_msg io) /\
     vm_at vm' seg true (pushed (take (Z.to_nat STACK_MAX_SIZE) imms))).
Proof.
  intros Hd Hprog.
  destruct (vm_init_at seg vm0 io Hd) as (vm1 & Hi & Hat1).
  destruct (vm_run_start _ _ _ _ io Hat1) as (Hrun & Hat2).
  pose proof Hprog as (Hlen & Hcode).
  assert (Hfuel : Z.to_nat (CodeSegment.length seg) = (2 * length imms)%nat)
    by (rewrite Hlen, length_push_program; lia).
  split.
  - intros Hle.
    destruct (push_loop seg io [] imms [] (started vm1) (length imms))
      as (vm' & Hl & Hat').
    { simpl app. rewrite app_nil_r. exact Hprog. }
    { exact Hat2. }
    { simpl app. exact Hle. }
    simpl app in Hl, Hat'. exists vm'. split; [|exact Hat'].
    unfold bind at 1. rewrite Hi, Hrun, Hfuel.
    replace (2 * length imms)%nat with (length imms + length imms)%nat by lia.
    unfold bind at 1. change (Z.of_nat (2 * length [])) with 0 in Hl.
    rewrite Hl.
    rewrite (vm_loop_at_end _ _ _ _ _ _ _ Hat');
      [reflexivity | rewrite Hlen, length_push_program; lia].
  - intros Hgt. unfold STACK_MAX_SIZE in Hgt.
    set (n := Z.to_nat STACK_MAX_SIZE).
    assert (Hn : Z.of_nat n = 1024) by reflexivity.
    assert (Hsplit : imms = take n imms ++ drop n imms)
      by (symmetry; apply take_drop).
    assert (Htake : length (take n imms) = n)
      by (rewrite length_take; lia).
    destruct (drop n imms) as [|b rest2] eqn:Hdrop.
    { apply (f_equal length) in Hdrop. rewrite length_drop in Hdrop.
      simpl in Hdrop. lia. }
    assert (Hprog' : holds_program seg
                       (push_program ([] ++ take n imms ++ b :: rest2)))
      by (simpl app; rewrite <- Hsplit; exact Hprog).
    destruct (push_loop seg io (b :: rest2) (take n imms) [] (started vm1)
                (S (length imms + length rest2)) Hprog' Hat2)
      as (vm2 & Hl & Hat').
    { simpl app. rewrite Htake. unfold STACK_MAX_SIZE. lia. }
    simpl app in Hl, Hat'. change (Z.of_nat (2 * length [])) with 0 in Hl.
    assert (Hb : (take n imms ++ b :: rest2) !! length (take n imms) = Some b)
      by (apply list_lookup_middle; reflexivity).
    rewrite <- Hsplit in Hb.
    destruct (push_program_lookup _ _ _ Hb) as (Hop & Himm).
    apply Hcode in Hop. apply Hcode in Himm.
    replace (Z.of_nat (S (2 * length (take n imms))))
      with (Z.of_nat (2 * length (take n imms)) + 1) in Himm by lia.
    destruct (push_step_full vm2 seg true _ b _ io Hop Himm Hat')
      as (vm' & Hs & Hat'').
    { unfold pushed. rewrite length_reverse, length_map, Htake.
      reflexivity. }
    exists vm'. split; [|exact Hat''].
    unfold bind at 1. rewrite Hi, Hrun, Hfuel.
    assert (Hlen_imms : length imms = (n + S (length rest2))%nat).
    { rewrite Hsplit at 1. rewrite length_app, Htake. reflexivity. }
    replace (2 * length imms)%nat
      with (length (take n imms) + S (length imms + length rest2))%nat
      by (rewrite Htake; lia).
    unfold bind at 1. rewrite Hl.
    erewrite vm_loop_exits; [reflexivity | exact Hat' | | exact Hs].
    rewrite Hlen, length_push_program, Htake. lia.
Qed.

Lemma run_of_pushes_witness :
  exists vm',
    (vm_init (assemble (push_program [x03; x09])) ;; vm_run) blank_vm empty_io =
      Ret tt vm' empty_io /\
    vm_at vm' (assemble (push_program [x03; x09])) true [9; 3].
Proof.
  destruct (run_of_pushes [x03; x09] blank_vm
              (assemble (push_program [x03; x09])) empty_io) as (H & _).
  - vm_compute. reflexivity.
  - program_holds.
  - apply H. vm_compute. discriminate.
Defined.

(** ** STOP *)

(** X17: STOP ends the run at once.  From a running engine whose next
    instruction is STOP the loop is left after that one iteration, at the
    index after the STOP, with the running flag clear, the stack and the
    two streams as they were: whatever bytes follow are not executed. *)
Theorem stop_ends_the_run n ip vm seg l io :
  code_at seg ip = Some (OpCode_byte OP_STOP) ->
  vm_at vm seg true l ->
  ip < CodeSegment.length seg ->
  exists vm',
    vm_loop (S n) ip vm io = Ret (ip + 1) vm' io /\
    vm_at vm' seg false l /\
    stack vm' = stack vm.
Proof.
  intros Hop Hat Hlt.
  assert (Hs : vm_step ip vm io =
               Ret (ip + 1)
                 {| code_segment := code_segment vm; stack := stack vm;
                    running := false |} io).
  { fetch_opcode Hat Hop. reflexivity. }
  exists {| code_segment := code_segment vm; stack := stack vm;
            running := false |}.
  split; [|split; [|reflexivity]].
  - erewrite vm_loop_next; [|exact Hat|exact Hlt|exact Hs].
    destruct n; reflexivity.
  - destruct Hat as (Hc & _ & Hst). split; [exact Hc|]. split; [reflexivity|].
    exact Hst.
Qed.

Lemma stop_ends_the_run_witness :
  exists vm',
    vm_loop 3 0 (example_vm [OpCode_byte OP_STOP; OpCode_byte OP_PRINT;
                             OpCode_byte OP_PRINT] [5]) empty_io =
      Ret 1 vm' empty_io /\
    vm_at vm' (assemble [OpCode_byte OP_STOP; OpCode_byte OP_PRINT;
                         OpCode_byte OP_PRINT]) false [5].
Proof.
  destruct (stop_ends_the_run 2 0
              (example_vm [OpCode_byte OP_STOP; OpCode_byte OP_PRINT;
                           OpCode_byte OP_PRINT] [5])
              (assemble [OpCode_byte OP_STOP; OpCode_byte OP_PRINT;
                         OpCode_byte OP_PRINT]) [5] empty_io)
    as (vm' & Hl & Hat & _).
  - reflexivity.
  - example_at.
  - vm_compute. reflexivity.
  - exists vm'. split; [exact Hl | exact Hat].
Defined.
